(** * The Psiphon client datastore: a shallow embedding and its properties

    The development follows [psiphon/dataStore.go]: a process-wide bolt
    database holding server entries, the ranked server entry vector, the
    server-affinity filter memo, split tunnel route caches and the
    persistent stat queue.

    Layout:
    - byte strings, errors, notices;
    - [bolt]: buckets as key-ordered association lists, with [Put], [Get],
      [Delete] and the size limits of the library;
    - the transaction monad [Tx] (state, error, panic, emitted notices) and
      the process state [World] (the database file, the singleton handle,
      the notice log, the storage faults still to come);
    - the functions of [dataStore.go], one definition per Go function;
    - the properties. *)

From Stdlib Require Import ZArith NArith Ascii String List DecimalString.
From stdpp Require Import base option list gmap strings.

Local Open Scope Z_scope.
Set Warnings "-clear-no-such-hyp".

(** ** Errors and notices *)

(** Go [error] values that the datastore code creates or passes on. The
    bolt sentinels keep their Go names. *)
Inductive error : Type :=
| ErrDatabaseNotOpen            (* errors.New("database not open") *)
| ErrDatabaseAlreadyOpen        (* errors.New("db already open") *)
| ErrOpenFailed                 (* "failed to open database: ..." *)
| ErrCreateBuckets              (* "failed to create buckets: ..." *)
| ErrKeyRequired                (* bolt.ErrKeyRequired *)
| ErrKeyTooLarge                (* bolt.ErrKeyTooLarge *)
| ErrValueTooLarge              (* bolt.ErrValueTooLarge *)
| ErrCommit                     (* a storage error reported by tx.Commit *)
| ErrInvalidServerEntry         (* "invalid server entry: ..." *)
| ErrInvalidPersistentStatType  (* "invalid persistent stat type: ..." *)
| ErrJSON                       (* an encoding/json error *)
| ErrExternal (msg : string).   (* an error of a collaborator *)

(** [common.ContextError] prefixes the message of [err] with the name of
    the calling function; the cause is what the model keeps. *)
Definition ContextError (err : error) : error := err.

Inductive Notice : Type :=
| NoticeAlert (msg : string)
| NoticeInfo (msg : string).

(** Outcome of a Go call that may return an error or panic. *)
Inductive Res (A : Type) : Type :=
| Ok (a : A)
| Err (e : error)
| Panic.
Arguments Ok {A} a.
Arguments Err {A} e.
Arguments Panic {A}.

(** ** bolt buckets *)

Module bolt.

(** bolt's limits: [MaxKeySize = 32768], [MaxValueSize = (1 << 31) - 2]. *)
Definition MaxKeySize : N := 32768.
Definition MaxValueSize : N := 2147483646.

(** [len] of a Go byte slice. *)
Definition len (s : string) : N := N.of_nat (String.length s).

(** A bucket is a map from byte-string keys to byte-string values that a
    cursor walks in byte order of the keys: an association list kept
    sorted by [String.compare]. *)
Abbreviation Bucket := (list (string * string)).

(** [Bucket.Get]: [None] is Go's nil (the key does not exist). *)
Fixpoint Get (key : string) (b : Bucket) : option string :=
  match b with
  | [] => None
  | (k, v) :: rest => if String.eqb key k then Some v else Get key rest
  end.

(** The node insertion of [Bucket.Put]: replace the value of an existing
    key, or insert the pair at its place in key order. *)
Fixpoint put (key value : string) (b : Bucket) : Bucket :=
  match b with
  | [] => [(key, value)]
  | (k, v) :: rest =>
      match String.compare key k with
      | Eq => (key, value) :: rest
      | Lt => (key, value) :: (k, v) :: rest
      | Gt => (k, v) :: put key value rest
      end
  end.

(** [Bucket.Put] inside a writable transaction. *)
Definition Put (key value : string) (b : Bucket) : Res Bucket :=
  if (len key =? 0)%N then Err ErrKeyRequired
  else if (MaxKeySize <? len key)%N then Err ErrKeyTooLarge
  else if (MaxValueSize <? len value)%N then Err ErrValueTooLarge
  else Ok (put key value b).

(** [Bucket.Delete]: removing a key that does not exist is not an error. *)
Fixpoint Delete (key : string) (b : Bucket) : Bucket :=
  match b with
  | [] => []
  | (k, v) :: rest =>
      if String.eqb key k then rest else (k, v) :: Delete key rest
  end.

(** The keys a cursor meets from [First] by [Next]. *)
Definition keys (b : Bucket) : list string := b.*1.

End bolt.

Abbreviation Bucket := (list (string * string)).

(** The content of a database file: its named buckets. *)
Abbreviation DB := (gmap string Bucket).

(** ** Transactions *)

(** A function run inside a bolt transaction: it reads and writes the
    buckets, emits notices, and ends with a value, an error or a panic.
    The notices are kept whatever the end. *)
Definition Tx (A : Type) : Type := DB -> list Notice * Res (A * DB).

Definition tx_ret {A} (a : A) : Tx A := fun db => ([], Ok (a, db)).

Definition tx_bind {A B} (m : Tx A) (f : A -> Tx B) : Tx B :=
  fun db =>
    match m db with
    | (ns, Ok (a, db')) =>
        match f a db' with
        | (ns', r) => (ns ++ ns', r)
        end
    | (ns, Err e) => (ns, Err e)
    | (ns, Panic) => (ns, Panic)
    end.

Definition tx_fail {A} (e : error) : Tx A := fun _ => ([], Err e).

Definition tx_emit (ns : list Notice) : Tx unit := fun db => (ns, Ok (tt, db)).

Definition tx_notice (n : Notice) : Tx unit := tx_emit [n].

Notation "'do' x <- m ; k" := (tx_bind m (fun x => k))
  (at level 10, x name, m at level 100, k at level 200).
Notation "'do' ' p <- m ; k" := (tx_bind m (fun x => match x with p => k end))
  (at level 10, p pattern, m at level 100, k at level 200).
Notation "m ;; k" := (tx_bind m (fun _ => k))
  (at level 100, k at level 200, right associativity).

(** [for _, x := range l { err := body(x); if err != nil { return err } }] *)
Fixpoint tx_for {A} (l : list A) (body : A -> Tx unit) : Tx unit :=
  match l with
  | [] => tx_ret tt
  | x :: rest => body x ;; tx_for rest body
  end.

(** [tx.Bucket(name)] followed by a method of the bucket. A bucket that
    does not exist is a nil pointer, and the method call panics. *)
Definition bucket_Get (name key : string) : Tx (option string) :=
  fun db =>
    match db !! name with
    | Some b => ([], Ok (bolt.Get key b, db))
    | None => ([], Panic)
    end.

Definition bucket_Put (name key value : string) : Tx unit :=
  fun db =>
    match db !! name with
    | Some b =>
        match bolt.Put key value b with
        | Ok b' => ([], Ok (tt, <[name := b']> db))
        | Err e => ([], Err e)
        | Panic => ([], Panic)
        end
    | None => ([], Panic)
    end.

Definition bucket_Delete (name key : string) : Tx unit :=
  fun db =>
    match db !! name with
    | Some b => ([], Ok (tt, <[name := bolt.Delete key b]> db))
    | None => ([], Panic)
    end.

(** [bucket.Cursor()] walked from [First] by [Next]: the pairs in key order. *)
Definition bucket_Cursor (name : string) : Tx Bucket :=
  fun db =>
    match db !! name with
    | Some b => ([], Ok (b, db))
    | None => ([], Panic)
    end.

(** [tx.CreateBucketIfNotExists(name)] for a name that is not blank. *)
Definition tx_CreateBucketIfNotExists (name : string) : Tx unit :=
  fun db =>
    match db !! name with
    | Some _ => ([], Ok (tt, db))
    | None => ([], Ok (tt, <[name := []]> db))
    end.

Definition tx_DeleteBucket (name : string) : Tx unit :=
  fun db => ([], Ok (tt, delete name db)).

Definition tx_panic {A} : Tx A := fun _ => ([], Panic).

Definition tx_lift {A} (r : Res A) : Tx A :=
  fun db =>
    match r with
    | Ok a => ([], Ok (a, db))
    | Err e => ([], Err e)
    | Panic => ([], Panic)
    end.

(** ** The process state *)

(** What [bolt.Open] finds at the datastore's file name. *)
Inductive DiskFile : Type :=
| FileAbsent                 (* no file: [bolt.Open] creates an empty one *)
| FileUnopenable             (* [bolt.Open] returns an error *)
| FileInconsistent           (* opens, and [tx.SynchronousCheck] fails *)
| FileDB (db : DB).          (* a consistent database *)

(** The state the functions of [dataStore.go] work on.
    - [boltFile]: the file [psiphon.boltdb], with what every committed
      transaction wrote;
    - [datastoreDB]: whether the singleton handle is set ([true]) or nil;
    - [notices]: the notices emitted so far, oldest first;
    - [commitFaults]: from the storage layer, for each commit of a
      read-write transaction still to come, whether it fails (none left:
      no failure);
    - [randSource]: the draws [math/rand] will make. *)
Record World : Type := mkWorld {
  boltFile : DiskFile;
  datastoreDB : bool;
  notices : list Notice;
  commitFaults : list bool;
  randSource : list Z;
}.

Definition emit (ns : list Notice) (w : World) : World :=
  mkWorld (boltFile w) (datastoreDB w) (notices w ++ ns)
          (commitFaults w) (randSource w).

Definition setHandle (h : bool) (w : World) : World :=
  mkWorld (boltFile w) h (notices w) (commitFaults w) (randSource w).

Definition setFile (f : DiskFile) (w : World) : World :=
  mkWorld f (datastoreDB w) (notices w) (commitFaults w) (randSource w).

Definition setFaults (fs : list bool) (w : World) : World :=
  mkWorld (boltFile w) (datastoreDB w) (notices w) fs (randSource w).

(** [db.Update(fn)]: [fn] runs on the file's content; an error of [fn]
    rolls the transaction back and is returned; otherwise the transaction
    commits, unless the storage layer fails the commit, whose error is
    returned with nothing written. *)
Definition db_Update {A} (fn : Tx A) (w : World) : Res A * World :=
  match boltFile w with
  | FileDB db =>
      match fn db with
      | (ns, Ok (a, db')) =>
          match commitFaults w with
          | true :: fs => (Err ErrCommit, setFaults fs (emit ns w))
          | false :: fs => (Ok a, setFaults fs (setFile (FileDB db') (emit ns w)))
          | [] => (Ok a, setFile (FileDB db') (emit ns w))
          end
      | (ns, Err e) => (Err e, emit ns w)
      | (ns, Panic) => (Panic, emit ns w)
      end
  | _ => (Panic, w)
  end.

(** [db.View(fn)]: [fn] runs on the file's content and nothing is written. *)
Definition db_View {A} (fn : Tx A) (w : World) : Res A * World :=
  match boltFile w with
  | FileDB db =>
      match fn db with
      | (ns, Ok (a, _)) => (Ok a, emit ns w)
      | (ns, Err e) => (Err e, emit ns w)
      | (ns, Panic) => (Panic, emit ns w)
      end
  | _ => (Panic, w)
  end.

Definition dataStoreView {A} (fn : Tx A) (w : World) : Res A * World :=
  if datastoreDB w then db_View fn w
  else (Err (ContextError ErrDatabaseNotOpen), w).

Definition dataStoreUpdate {A} (fn : Tx A) (w : World) : Res A * World :=
  if datastoreDB w then db_Update fn w
  else (Err (ContextError ErrDatabaseNotOpen), w).

(** ** Constants of [dataStore.go] *)

Definition serverEntriesBucket : string := "serverEntries".
Definition rankedServerEntriesBucket : string := "rankedServerEntries".
Definition rankedServerEntriesKey : string := "rankedServerEntries".
Definition splitTunnelRouteETagsBucket : string := "splitTunnelRouteETags".
Definition splitTunnelRouteDataBucket : string := "splitTunnelRouteData".
Definition urlETagsBucket : string := "urlETags".
Definition keyValueBucket : string := "keyValues".
Definition tunnelStatsBucket : string := "tunnelStats".
Definition remoteServerListStatsBucket : string := "remoteServerListStats".
Definition slokBucket : string := "SLOKs".
Definition tacticsBucket : string := "tactics".
Definition speedTestSamplesBucket : string := "speedTestSamples".

Definition rankedServerEntryCount : nat := 100.

Definition DATA_STORE_LAST_SERVER_ENTRY_FILTER_KEY : string :=
  "lastServerEntryFilter".
Definition PERSISTENT_STAT_TYPE_REMOTE_SERVER_LIST : string :=
  remoteServerListStatsBucket.

Definition persistentStatStateUnreported : string := "0".
Definition persistentStatStateReporting : string := "1".

Definition persistentStatTypes : list string :=
  [PERSISTENT_STAT_TYPE_REMOTE_SERVER_LIST].

(** ** Types of the collaborators *)

(** The fields of [Config] that the datastore reads.
    [LimitTunnelProtocols] stands for
    [config.clientParameters.Get().TunnelProtocols(parameters.LimitTunnelProtocols)]
    and [UseUpstreamProxy] for the method of that name. *)
Record Config : Type := mkConfig {
  EgressRegion : string;
  TunnelPoolSize : Z;
  TargetServerEntry : string;
  UseUpstreamProxy : bool;
  LimitTunnelProtocols : list string;
}.

(** The fields of [protocol.ServerEntry] that the datastore reads. *)
Record ServerEntry : Type := mkServerEntry {
  IpAddress : string;
  Region : string;
  ConfigurationVersion : Z;
  MeekFrontingDomain : string;
  MeekFrontingAddresses : list string;
}.

(** What [dataStore.go] calls in [protocol] and [encoding/json].
    - [ServerEntryFields] is [protocol.ServerEntryFields] with its getters
      and its validator ([None]: the nil error);
    - [json_Marshal_*] and [json_Unmarshal_*] are [json.Marshal] and
      [json.Unmarshal] at the types the datastore uses them at; decoding
      into a [*protocol.ServerEntry] gives [Ok None] when the pointer is
      left nil (the JSON value null);
    - [json_Valid key] is whether [json.Unmarshal(key, &jsonData)] into an
      empty interface returns no error. *)
Class External : Type := {
  ServerEntryFields : Type;
  GetIPAddress : ServerEntryFields -> string;
  GetConfigurationVersion : ServerEntryFields -> Z;
  ValidateServerEntryFields : ServerEntryFields -> option error;
  json_Marshal_ServerEntryFields : ServerEntryFields -> Res string;
  json_Unmarshal_ServerEntry : string -> Res (option ServerEntry);
  json_Marshal_strings : list string -> Res string;
  json_Unmarshal_strings : string -> Res (list string);
  json_Valid : string -> bool;
  DecodeServerEntry : string -> Res ServerEntry;
  GetSupportedTacticsProtocols : ServerEntry -> list string;
  GetSupportedProtocols :
    ServerEntry -> bool -> list string -> bool -> list string;
}.

(** ** Go library functions used below *)

(** [bytes.Compare]: -1, 0 or 1. *)
Definition bytes_Compare (a b : string) : Z :=
  match String.compare a b with
  | Eq => 0
  | Lt => -1
  | Gt => 1
  end.

(** A byte slice that may be nil, read as bytes: [bytes.Compare],
    [string(...)] and [len] take nil for the empty slice. *)
Definition slice (s : option string) : string := default EmptyString s.

(** [common.Contains]. *)
Definition Contains (l : list string) (s : string) : bool :=
  existsb (String.eqb s) l.

(** [copy(dst, src)]: the first [min (len dst) (len src)] elements of
    [dst] are overwritten. *)
Definition copy {A} (dst src : list A) : list A :=
  take (length dst) src ++ drop (length src) dst.

(** [rand.Intn(n)] for [n > 0], reading the next draw of the source. *)
Definition rand_Intn (n : Z) (w : World) : Z * World :=
  match randSource w with
  | [] => (0, w)
  | d :: ds =>
      (d mod n,
       mkWorld (boltFile w) (datastoreDB w) (notices w) (commitFaults w) ds)
  end.

(** ** The functions of [dataStore.go] *)

Section DataStore.
Context {ext : External}.

(** *** OpenDataStore *)

Definition requiredBuckets : list string :=
  [ serverEntriesBucket; rankedServerEntriesBucket;
    splitTunnelRouteETagsBucket; splitTunnelRouteDataBucket;
    urlETagsBucket; keyValueBucket; tunnelStatsBucket;
    remoteServerListStatsBucket; slokBucket; tacticsBucket;
    speedTestSamplesBucket ].

(** [bolt.Open(filename, 0600, ...)]. *)
Definition bolt_Open (w : World) : option error * World :=
  match boltFile w with
  | FileAbsent => (None, setFile (FileDB ∅) w)
  | FileUnopenable => (Some (ErrExternal "bolt.Open"), w)
  | FileInconsistent => (None, w)
  | FileDB _ => (None, w)
  end.

(** [newDB.View(func(tx) { return tx.SynchronousCheck() })]. *)
Definition SynchronousCheck (w : World) : option error :=
  match boltFile w with
  | FileInconsistent => Some (ErrExternal "bolt.SynchronousCheck")
  | _ => None
  end.

Definition os_Remove (w : World) : World := setFile FileAbsent w.

(** The loop [for retry := 0; retry < 3; retry++] with [n = 3 - retry]
    rounds left; the result is [err] as the loop leaves it. *)
Fixpoint openAttempts (n : nat) (retry : Z) (err : option error) (w : World)
  : option error * World :=
  match n with
  | O => (err, w)
  | S n' =>
      let w0 :=
        if 0 <? retry then emit [NoticeAlert "OpenDataStore retry"] w else w in
      match bolt_Open w0 with
      | (Some e, w1) =>
          openAttempts n' (retry + 1) (Some e)
            (os_Remove (emit [NoticeAlert "bolt.Open error"] w1))
      | (None, w1) =>
          match SynchronousCheck w1 with
          | Some e =>
              openAttempts n' (retry + 1) (Some e)
                (os_Remove
                   (emit [NoticeAlert "bolt.SynchronousCheck error"] w1))
          | None => (None, w1)
          end
      end
  end.

(** The second Update of [OpenDataStore]: the obsolete bucket is deleted
    when it exists. [tx.DeleteBucket] of an existing plain bucket returns
    no error. *)
Definition deleteObsoleteBucket : Tx unit :=
  fun db =>
    match db !! tunnelStatsBucket with
    | Some _ => tx_DeleteBucket tunnelStatsBucket db
    | None => ([], Ok (tt, db))
    end.

(** *** Persistent stats: reset at start up *)

Definition resetBucketToUnreported (statType : string) : Tx unit :=
  do items <- bucket_Cursor statType;
  let resetKeys := bolt.keys items in
  tx_for resetKeys
    (fun key => bucket_Put statType key persistentStatStateUnreported).

Definition resetAllPersistentStatsToUnreported (w : World)
  : Res unit * World :=
  dataStoreUpdate (tx_for persistentStatTypes resetBucketToUnreported) w.

(** [OpenDataStore] up to the publication of the handle. *)
Definition openAndInitialize (config : Config) (w : World)
  : Res unit * World :=
  if datastoreDB w then (Err (ContextError ErrDatabaseAlreadyOpen), w)
  else
    match openAttempts 3 0 None w with
    | (Some _, w1) => (Err (ContextError ErrOpenFailed), w1)
    | (None, w1) =>
        match db_Update (tx_for requiredBuckets tx_CreateBucketIfNotExists) w1
        with
        | (Ok _, w2) =>
            match db_Update deleteObsoleteBucket w2 with
            | (Ok _, w3) => (Ok tt, setHandle true w3)
            | (Err _, w3) => (Err (ContextError ErrCreateBuckets), w3)
            | (Panic, w3) => (Panic, w3)
            end
        | (Err _, w2) => (Err (ContextError ErrCreateBuckets), w2)
        | (Panic, w2) => (Panic, w2)
        end
    end.

(** [OpenDataStore]: after the handle is published comes
    [_ = resetAllPersistentStatsToUnreported()], then [return nil]. *)
Definition OpenDataStore (config : Config) (w : World) : Res unit * World :=
  match openAndInitialize config w with
  | (Ok _, w4) =>
      match resetAllPersistentStatsToUnreported w4 with
      | (Panic, w5) => (Panic, w5)
      | (_, w5) => (Ok tt, w5)
      end
  | (r, w1) => (r, w1)
  end.

(** [CloseDataStore]; [db.Close] of the model returns no error. *)
Definition CloseDataStore (w : World) : World := setHandle false w.

(** *** The ranked server entries *)

Definition getRankedServerEntries : Tx (list string) :=
  do data <- bucket_Get rankedServerEntriesBucket rankedServerEntriesKey;
  match data with
  | None => tx_ret []
  | Some data =>
      match json_Unmarshal_strings data with
      | Ok rankedServerEntries => tx_ret rankedServerEntries
      | Err err => tx_fail (ContextError err)
      | Panic => tx_panic
      end
  end.

Definition setRankedServerEntries (rankedServerEntries : list string)
  : Tx unit :=
  match json_Marshal_strings rankedServerEntries with
  | Ok data =>
      bucket_Put rankedServerEntriesBucket rankedServerEntriesKey data
  | Err err => tx_fail (ContextError err)
  | Panic => tx_panic
  end.

(** The loop that removes [serverEntryId] where it is first met:
    [append(ids[:i], ids[i+1:]...)], then [break]. *)
Fixpoint removeRanked (serverEntryId : string) (ids : list string)
  : list string :=
  match ids with
  | [] => []
  | rankedServerEntryId :: rest =>
      if String.eqb rankedServerEntryId serverEntryId then rest
      else rankedServerEntryId :: removeRanked serverEntryId rest
  end.

(** The SliceTricks insert with the length cap: the slice grows by one
    placeholder when under the cap, [position] is clamped to the last
    index, [copy(ids[position+1:], ids[position:])] shifts the tail and
    [ids[position] = serverEntryId]. A negative [position] is an index out
    of range. *)
Definition insertCapped (serverEntryId : string) (position : Z)
    (ids : list string) : option (list string) :=
  let ids1 :=
    if (length ids <? rankedServerEntryCount)%nat
    then ids ++ [EmptyString] else ids in
  let position :=
    if Z.of_nat (length ids1) <=? position
    then Z.of_nat (length ids1) - 1 else position in
  if position <? 0 then None
  else
    let p := Z.to_nat position in
    let ids2 := take (S p) ids1 ++ copy (drop (S p) ids1) (drop p ids1) in
    Some (<[p := serverEntryId]> ids2).

Definition insertRankedServerEntry (serverEntryId : string) (position : Z)
  : Tx unit :=
  do rankedServerEntries <- getRankedServerEntries;
  match insertCapped serverEntryId position
          (removeRanked serverEntryId rankedServerEntries) with
  | Some rankedServerEntries' => setRankedServerEntries rankedServerEntries'
  | None => tx_panic
  end.

(** *** StoreServerEntry *)

(** [existingConfigurationVersion] as the transaction of
    [StoreServerEntry] computes it: -1 unless the stored value decodes. *)
Definition readExistingConfigurationVersion (existingData : option string)
  : Res Z :=
  match existingData with
  | None => Ok (-1)
  | Some data =>
      match json_Unmarshal_ServerEntry data with
      | Ok (Some existingServerEntry) =>
          Ok (ConfigurationVersion existingServerEntry)
      | Ok None => Panic            (* field of a nil pointer *)
      | Err _ => Ok (-1)
      | Panic => Panic
      end
  end.

(** The function that [StoreServerEntry] passes to [dataStoreUpdate]. *)
Definition storeServerEntryTx (serverEntryFields : ServerEntryFields)
    (replaceIfExists : bool) : Tx unit :=
  let ipAddress := GetIPAddress serverEntryFields in
  do existingData <- bucket_Get serverEntriesBucket ipAddress;
  do existingConfigurationVersion <-
    tx_lift (readExistingConfigurationVersion existingData);
  let exists_ := -1 <? existingConfigurationVersion in
  let newer :=
    exists_ &&
    (existingConfigurationVersion
       <? GetConfigurationVersion serverEntryFields) in
  let update := negb exists_ || replaceIfExists || newer in
  if negb update then tx_ret tt
  else
    match json_Marshal_ServerEntryFields serverEntryFields with
    | Ok data =>
        bucket_Put serverEntriesBucket ipAddress data ;;
        insertRankedServerEntry ipAddress 1 ;;
        tx_notice (NoticeInfo ("updated server " +:+ ipAddress))
    | Err err => tx_fail (ContextError err)
    | Panic => tx_panic
    end.

Definition StoreServerEntry (serverEntryFields : ServerEntryFields)
    (replaceIfExists : bool) (w : World) : Res unit * World :=
  match ValidateServerEntryFields serverEntryFields with
  | Some err => (Err (ContextError ErrInvalidServerEntry), w)
  | None =>
      dataStoreUpdate (storeServerEntryTx serverEntryFields replaceIfExists) w
  end.

(** [StoreServerEntries]: one call of [StoreServerEntry], and so one
    transaction, for each entry; the first error ends the loop. *)
Fixpoint StoreServerEntries (config : Config)
    (serverEntries : list ServerEntryFields) (replaceIfExists : bool)
    (w : World) : Res unit * World :=
  match serverEntries with
  | [] => (Ok tt, w)
  | serverEntryFields :: rest =>
      match StoreServerEntry serverEntryFields replaceIfExists w with
      | (Ok _, w1) => StoreServerEntries config rest replaceIfExists w1
      | (Err err, w1) => (Err (ContextError err), w1)
      | (Panic, w1) => (Panic, w1)
      end
  end.

(** A [protocol.StreamingServerEntryDecoder]: what the calls of [Next]
    return in turn, an entry or an error, and after the last of them
    [nil, nil]. *)
Abbreviation StreamingServerEntryDecoder := (list (Res ServerEntryFields)).

Fixpoint StreamingStoreServerEntries (config : Config)
    (serverEntries : StreamingServerEntryDecoder) (replaceIfExists : bool)
    (w : World) : Res unit * World :=
  match serverEntries with
  | [] => (Ok tt, w)                  (* serverEntry == nil: break *)
  | Err err :: _ => (Err (ContextError err), w)
  | Panic :: _ => (Panic, w)
  | Ok serverEntry :: rest =>
      match StoreServerEntry serverEntry replaceIfExists w with
      | (Ok _, w1) => StreamingStoreServerEntries config rest replaceIfExists w1
      | (Err err, w1) => (Err (ContextError err), w1)
      | (Panic, w1) => (Panic, w1)
      end
  end.

(** *** PromoteServerEntry and the server entry filter *)

Definition makeServerEntryFilterValue (config : Config) : Res string :=
  Ok (EgressRegion config).

Definition promoteServerEntryTx (config : Config) (ipAddress : string)
  : Tx unit :=
  do data <- bucket_Get serverEntriesBucket ipAddress;
  match data with
  | None =>
      tx_notice
        (NoticeAlert
           ("PromoteServerEntry: ignoring unknown server entry: "
              +:+ ipAddress))
  | Some _ =>
      insertRankedServerEntry ipAddress 0 ;;
      do currentFilter <- tx_lift (makeServerEntryFilterValue config);
      bucket_Put keyValueBucket DATA_STORE_LAST_SERVER_ENTRY_FILTER_KEY
        currentFilter
  end.

Definition PromoteServerEntry (config : Config) (ipAddress : string)
    (w : World) : Res unit * World :=
  dataStoreUpdate (promoteServerEntryTx config ipAddress) w.

Definition hasServerEntryFilterChangedTx (currentFilter : string) : Tx bool :=
  do previousFilter <-
    bucket_Get keyValueBucket DATA_STORE_LAST_SERVER_ENTRY_FILTER_KEY;
  tx_ret (negb (bytes_Compare (slice previousFilter) currentFilter =? 0)).

Definition hasServerEntryFilterChanged (config : Config) (w : World)
  : Res bool * World :=
  match makeServerEntryFilterValue config with
  | Ok currentFilter =>
      dataStoreView (hasServerEntryFilterChangedTx currentFilter) w
  | Err err => (Err (ContextError err), w)
  | Panic => (Panic, w)
  end.

(** *** ServerEntryIterator *)

Record ServerEntryIterator : Type := mkIterator {
  config : option Config;
  shuffleHeadLength : Z;
  serverEntryIds : list string;
  serverEntryIndex : Z;
  isTacticsServerEntryIterator : bool;
  isTargetServerEntryIterator : bool;
  hasNextTargetServerEntry : bool;
  targetServerEntry : option ServerEntry;
}.

(** [newTargetServerEntryIterator]: the datastore is not read. *)
Definition newTargetServerEntryIterator (config : Config) (isTactics : bool)
    (w : World) : Res (bool * ServerEntryIterator) * World :=
  match DecodeServerEntry (TargetServerEntry config) with
  | Err err => (Err (ContextError err), w)
  | Panic => (Panic, w)
  | Ok serverEntry =>
      let rejected :=
        if isTactics
        then
          if (length (GetSupportedTacticsProtocols serverEntry) =? 0)%nat
          then Some (ErrExternal
                       "TargetServerEntry does not support tactics protocols")
          else None
        else
          if negb (String.eqb (EgressRegion config) EmptyString)
             && negb (String.eqb (Region serverEntry) (EgressRegion config))
          then Some (ErrExternal
                       "TargetServerEntry does not support EgressRegion")
          else
            let limitTunnelProtocols := LimitTunnelProtocols config in
            if (0 <? length limitTunnelProtocols)%nat
               && (length (GetSupportedProtocols serverEntry
                             (UseUpstreamProxy config)
                             limitTunnelProtocols false) =? 0)%nat
            then Some (ErrExternal
                   "TargetServerEntry does not support LimitTunnelProtocols")
            else None in
      match rejected with
      | Some err => (Err (ContextError err), w)
      | None =>
          (Ok (false,
               mkIterator None 0 [] 0 isTactics true true (Some serverEntry)),
           emit [NoticeInfo
                   ("using TargetServerEntry: " +:+ IpAddress serverEntry)] w)
      end
  end.

(** The View of [Reset]: the ranked ids, then the keys of the server
    entries bucket from [cursor.Last] by [cursor.Prev] that are not
    ranked. *)
Definition resetTx : Tx (list string) :=
  do serverEntryIds <- getRankedServerEntries;
  do items <- bucket_Cursor serverEntriesBucket;
  tx_ret
    (serverEntryIds ++
     filter (fun serverEntryId => negb (Contains serverEntryIds serverEntryId))
       (rev (bolt.keys items))).

(** [ids[i], ids[j] = ids[j], ids[i]]; [None] for an index out of range. *)
Definition swap (ids : list string) (i : nat) (j : Z) : option (list string) :=
  if j <? 0 then None
  else
    match ids !! i, ids !! Z.to_nat j with
    | Some x, Some y => Some (<[Z.to_nat j := x]> (<[i := y]> ids))
    | _, _ => None
    end.

(** The shuffle loop [for i := len(ids) - 1; i > h-1; i--] at [i = n - 1]. *)
Fixpoint shuffleLoop (n : nat) (h : Z) (ids : list string) (w : World)
  : Res (list string) * World :=
  match n with
  | O => (Ok ids, w)
  | S i =>
      if h - 1 <? Z.of_nat i
      then
        match rand_Intn (Z.of_nat i + 1 - h) w with
        | (r, w1) =>
            match swap ids i (r + h) with
            | Some ids' => shuffleLoop i h ids' w1
            | None => (Panic, w1)
            end
        end
      else (Ok ids, w)
  end.

Definition Reset (iterator : ServerEntryIterator) (w : World)
  : Res ServerEntryIterator * World :=
  if isTargetServerEntryIterator iterator
  then
    (Ok (mkIterator (config iterator) (shuffleHeadLength iterator) [] 0
           (isTacticsServerEntryIterator iterator) true true
           (targetServerEntry iterator)), w)
  else
    match dataStoreView resetTx w with
    | (Ok serverEntryIds, w1) =>
        match shuffleLoop (length serverEntryIds)
                (shuffleHeadLength iterator) serverEntryIds w1 with
        | (Ok shuffled, w2) =>
            (Ok (mkIterator (config iterator) (shuffleHeadLength iterator)
                   shuffled 0 (isTacticsServerEntryIterator iterator)
                   false (hasNextTargetServerEntry iterator)
                   (targetServerEntry iterator)), w2)
        | (Err err, w2) => (Err err, w2)
        | (Panic, w2) => (Panic, w2)
        end
    | (Err err, w1) => (Err (ContextError err), w1)
    | (Panic, w1) => (Panic, w1)
    end.

Definition NewServerEntryIterator (config : Config) (w : World)
  : Res (bool * ServerEntryIterator) * World :=
  if negb (String.eqb (TargetServerEntry config) EmptyString)
  then newTargetServerEntryIterator config false w
  else
    match hasServerEntryFilterChanged config w with
    | (Ok filterChanged, w1) =>
        let applyServerAffinity := negb filterChanged in
        match Reset (mkIterator (Some config) (TunnelPoolSize config) [] 0
                       false false false None) w1 with
        | (Ok iterator, w2) => (Ok (applyServerAffinity, iterator), w2)
        | (Err err, w2) => (Err (ContextError err), w2)
        | (Panic, w2) => (Panic, w2)
        end
    | (Err err, w1) => (Err (ContextError err), w1)
    | (Panic, w1) => (Panic, w1)
    end.

Definition NewTacticsServerEntryIterator (config : Config) (w : World)
  : Res ServerEntryIterator * World :=
  if negb (String.eqb (TargetServerEntry config) EmptyString)
  then
    match newTargetServerEntryIterator config true w with
    | (Ok (_, iterator), w1) => (Ok iterator, w1)
    | (Err err, w1) => (Err err, w1)
    | (Panic, w1) => (Panic, w1)
    end
  else
    match Reset (mkIterator None 0 [] 0 true false false None) w with
    | (Ok iterator, w1) => (Ok iterator, w1)
    | (Err err, w1) => (Err (ContextError err), w1)
    | (Panic, w1) => (Panic, w1)
    end.

(** *** Split tunnel routes *)

(** The error of the first [Put] is assigned to [err], which the second
    [Put] assigns again before it is returned. *)
Definition setSplitTunnelRoutesTx (region etag data : string) : Tx unit :=
  fun db =>
    match bucket_Put splitTunnelRouteETagsBucket region etag db with
    | (ns, Panic) => (ns, Panic)
    | (ns, Ok (_, db1)) =>
        match bucket_Put splitTunnelRouteDataBucket region data db1 with
        | (ns', r) => (ns ++ ns', r)
        end
    | (ns, Err _) =>
        match bucket_Put splitTunnelRouteDataBucket region data db with
        | (ns', r) => (ns ++ ns', r)
        end
    end.

Definition SetSplitTunnelRoutes (region etag data : string) (w : World)
  : Res unit * World :=
  dataStoreUpdate (setSplitTunnelRoutesTx region etag data) w.

Definition GetSplitTunnelRoutesETag (region : string) (w : World)
  : Res string * World :=
  dataStoreView
    (do etag <- bucket_Get splitTunnelRouteETagsBucket region;
     tx_ret (slice etag)) w.

Definition GetSplitTunnelRoutesData (region : string) (w : World)
  : Res (option string) * World :=
  dataStoreView (bucket_Get splitTunnelRouteDataBucket region) w.

(** *** Persistent stats *)

Definition StorePersistentStat (statType stat : string) (w : World)
  : Res unit * World :=
  if negb (Contains persistentStatTypes statType)
  then (Err (ContextError ErrInvalidPersistentStatType), w)
  else dataStoreUpdate
         (bucket_Put statType stat persistentStatStateUnreported) w.

(** The cursor loop of [CountUnreportedPersistentStats] over one bucket:
    at the first value equal to the unreported state the counter is
    incremented and the loop is left by [break]. *)
Fixpoint countUnreportedLoop (items : Bucket) (unreported : Z) : Z :=
  match items with
  | [] => unreported
  | (key, value) :: rest =>
      if bytes_Compare value persistentStatStateUnreported =? 0
      then unreported + 1
      else countUnreportedLoop rest unreported
  end.

Fixpoint countUnreportedTx (statTypes : list string) (unreported : Z)
  : Tx Z :=
  match statTypes with
  | [] => tx_ret unreported
  | statType :: rest =>
      do items <- bucket_Cursor statType;
      countUnreportedTx rest (countUnreportedLoop items unreported)
  end.

Definition CountUnreportedPersistentStats (w : World) : Z * World :=
  match dataStoreView (countUnreportedTx persistentStatTypes 0) w with
  | (Ok unreported, w1) => (unreported, w1)
  | (_, w1) =>
      (0, emit [NoticeAlert "CountUnreportedPersistentStats failed"] w1)
  end.

(** [map[string][][]byte]: the stats taken out, by stat type; a type
    without an entry reads as nil. *)
Abbreviation Stats := (gmap string (list string)).

Definition statsOf (stats : Stats) (statType : string) : list string :=
  default [] (stats !! statType).

(** The cursor loop of [TakeOutUnreportedPersistentStats] over one bucket,
    with the counter [count] and the slice [stats[statType]] as [taken]. *)
Fixpoint takeOutLoop (maxCount : Z) (items : Bucket) (count : Z)
    (taken : list string) : list Notice * (Z * list string) :=
  match items with
  | [] => ([], (count, taken))
  | (key, value) :: rest =>
      if maxCount <=? count then ([], (count, taken))
      else if negb (json_Valid key)
      then
        match takeOutLoop maxCount rest count taken with
        | (ns, r) =>
            (NoticeAlert
               ("Invalid key in TakeOutUnreportedPersistentStats: " +:+ key)
               :: ns, r)
        end
      else if bytes_Compare value persistentStatStateUnreported =? 0
      then takeOutLoop maxCount rest (count + 1) (taken ++ [key])
      else takeOutLoop maxCount rest count taken
  end.

Fixpoint takeOutTx (maxCount : Z) (statTypes : list string) (count : Z)
    (stats : Stats) : Tx Stats :=
  match statTypes with
  | [] => tx_ret stats
  | statType :: rest =>
      do items <- bucket_Cursor statType;
      match takeOutLoop maxCount items count (statsOf stats statType) with
      | (ns, (count', taken)) =>
          let stats' :=
            match taken with
            | [] => stats
            | _ :: _ => <[statType := taken]> stats
            end in
          tx_emit ns ;;
          tx_for (statsOf stats' statType)
            (fun key => bucket_Put statType key persistentStatStateReporting) ;;
          takeOutTx maxCount rest count' stats'
      end
  end.

Definition TakeOutUnreportedPersistentStats (maxCount : Z) (w : World)
  : Res Stats * World :=
  dataStoreUpdate (takeOutTx maxCount persistentStatTypes 0 ∅) w.

Definition PutBackUnreportedPersistentStats (stats : Stats) (w : World)
  : Res unit * World :=
  dataStoreUpdate
    (tx_for persistentStatTypes (fun statType =>
       tx_for (statsOf stats statType) (fun key =>
         bucket_Put statType key persistentStatStateUnreported))) w.

Definition ClearReportedPersistentStats (stats : Stats) (w : World)
  : Res unit * World :=
  dataStoreUpdate
    (tx_for persistentStatTypes (fun statType =>
       tx_for (statsOf stats statType) (fun key =>
         bucket_Delete statType key))) w.

(** ** Properties of buckets *)

Lemma string_eqb_refl (s : string) : String.eqb s s = true.
Proof. apply String.eqb_eq. reflexivity. Qed.

Lemma string_eqb_ne (s t : string) : s ≠ t -> String.eqb s t = false.
Proof. intros Hne. apply String.eqb_neq. exact Hne. Qed.

Lemma string_compare_refl (s : string) : String.compare s s = Eq.
Proof.
  pose proof (String.compare_antisym s s) as H.
  destruct (String.compare s s); simpl in H; congruence.
Qed.

Lemma Get_put_eq key value (b : Bucket) :
  bolt.Get key (bolt.put key value b) = Some value.
Proof.
  induction b as [|[k v] rest IH]; simpl.
  - rewrite string_eqb_refl. reflexivity.
  - destruct (String.compare key k) eqn:Hc; simpl.
    + rewrite string_eqb_refl. reflexivity.
    + rewrite string_eqb_refl. reflexivity.
    + destruct (String.eqb key k) eqn:He.
      * apply String.eqb_eq in He. subst k.
        rewrite string_compare_refl in Hc. discriminate.
      * exact IH.
Qed.

Lemma Get_put_ne key key' value (b : Bucket) :
  key ≠ key' ->
  bolt.Get key' (bolt.put key value b) = bolt.Get key' b.
Proof.
  intros Hne. induction b as [|[k v] rest IH]; simpl.
  - rewrite string_eqb_ne by congruence. reflexivity.
  - destruct (String.compare key k) eqn:Hc; simpl.
    + apply String.compare_eq_iff in Hc. subst k.
      rewrite string_eqb_ne by congruence. reflexivity.
    + rewrite (string_eqb_ne key' key) by congruence. reflexivity.
    + rewrite IH. reflexivity.
Qed.

Lemma elem_of_keys_put x key value (b : Bucket) :
  x ∈ bolt.keys (bolt.put key value b) <-> x = key ∨ x ∈ bolt.keys b.
Proof.
  unfold bolt.keys. induction b as [|[k v] rest IH]; simpl.
  - rewrite list_elem_of_singleton. set_solver.
  - destruct (String.compare key k) eqn:Hc; simpl.
    + apply String.compare_eq_iff in Hc. subst k. set_solver.
    + set_solver.
    + rewrite !elem_of_cons, IH. tauto.
Qed.

Lemma elem_of_keys_Delete x key (b : Bucket) :
  x ∈ bolt.keys (bolt.Delete key b) -> x ∈ bolt.keys b.
Proof.
  unfold bolt.keys. induction b as [|[k v] rest IH]; simpl; [done|].
  destruct (String.eqb key k); simpl; set_solver.
Qed.

Lemma Get_Some_elem_of_keys key value (b : Bucket) :
  bolt.Get key b = Some value -> key ∈ bolt.keys b.
Proof.
  unfold bolt.keys. induction b as [|[k v] rest IH]; simpl; [done|].
  destruct (String.eqb key k) eqn:He.
  - apply String.eqb_eq in He. subst k. set_solver.
  - set_solver.
Qed.

Lemma Get_elem_of key value (b : Bucket) :
  bolt.Get key b = Some value -> (key, value) ∈ b.
Proof.
  induction b as [|[k v] rest IH]; simpl; [done|].
  destruct (String.eqb key k) eqn:He.
  - apply String.eqb_eq in He. subst k. intros [= ->]. set_solver.
  - set_solver.
Qed.

Lemma Put_Ok_inv key value (b b' : Bucket) :
  bolt.Put key value b = Ok b' -> b' = bolt.put key value b.
Proof.
  unfold bolt.Put.
  repeat match goal with |- context [if ?c then _ else _] => destruct c end;
    congruence.
Qed.

Lemma Put_not_Panic key value (b : Bucket) : bolt.Put key value b ≠ Panic.
Proof.
  unfold bolt.Put.
  repeat match goal with |- context [if ?c then _ else _] => destruct c end;
    congruence.
Qed.

(** Whether [Put] succeeds depends on the key and the value alone. *)
Lemma Put_Ok_any key value (b b0 : Bucket) b' :
  bolt.Put key value b = Ok b' ->
  bolt.Put key value b0 = Ok (bolt.put key value b0).
Proof.
  unfold bolt.Put.
  repeat match goal with |- context [if ?c then _ else _] => destruct c end;
    congruence.
Qed.

(** ** Properties of the ranker *)

Local Open Scope nat_scope.

Lemma copy_shift {A} (l : list A) q :
  q < length l ->
  copy (drop (S q) l) (drop q l) = take (length l - q - 1) (drop q l).
Proof.
  intros Hq. unfold copy. rewrite !length_drop.
  rewrite (drop_ge (drop (S q) l)) by (rewrite length_drop; lia).
  rewrite app_nil_r. f_equal. lia.
Qed.

(** The shift by [copy] and the assignment at [q], as one list. *)
Lemma shift_insert {A} (l : list A) q x :
  q < length l ->
  <[q := x]> (take (S q) l ++ copy (drop (S q) l) (drop q l))
  = take q l ++ x :: take (length l - q - 1) (drop q l).
Proof.
  intros Hq. rewrite copy_shift by done.
  destruct (lookup_lt_is_Some_2 l q Hq) as [y Hy].
  rewrite (take_S_r _ _ _ Hy), <- app_assoc. simpl.
  rewrite insert_app_r_alt by (rewrite length_take; lia).
  rewrite length_take.
  replace (q - q `min` length l) with 0 by lia. reflexivity.
Qed.

Lemma insertCapped_below id (p : Z) (l : list string) :
  (0 <= p)%Z -> length l < rankedServerEntryCount ->
  insertCapped id p l
  = Some (take (Z.to_nat p `min` length l) l
          ++ id :: drop (Z.to_nat p `min` length l) l).
Proof.
  intros Hp Hlen. unfold insertCapped.
  apply Nat.ltb_lt in Hlen as Hb. rewrite Hb. clear Hb.
  rewrite length_app. simpl length.
  set (q := Z.to_nat p `min` length l).
  assert (Hq : Z.to_nat
            (if (Z.of_nat (length l + 1) <=? p)%Z
             then (Z.of_nat (length l + 1) - 1)%Z else p) = q).
  { unfold q. destruct (Z.leb_spec (Z.of_nat (length l + 1)) p); lia. }
  assert (Hneg : ((if (Z.of_nat (length l + 1) <=? p)%Z
             then (Z.of_nat (length l + 1) - 1)%Z else p) <? 0)%Z = false).
  { destruct (Z.leb_spec (Z.of_nat (length l + 1)) p);
      apply Z.ltb_ge; lia. }
  rewrite Hneg, Hq.
  assert (Hql : q <= length l) by (unfold q; lia).
  rewrite shift_insert by (rewrite length_app; simpl; lia).
  rewrite length_app. simpl length.
  rewrite take_app_le by lia.
  rewrite drop_app_le by lia.
  rewrite take_app_le by (rewrite length_drop; lia).
  rewrite (take_ge (drop q l)) by (rewrite length_drop; lia).
  reflexivity.
Qed.

Lemma insertCapped_full id (p : Z) (l : list string) :
  (0 <= p)%Z -> rankedServerEntryCount <= length l ->
  insertCapped id p l
  = Some (take (Z.to_nat p `min` (length l - 1)) l
          ++ id :: take (length l - Z.to_nat p `min` (length l - 1) - 1)
                     (drop (Z.to_nat p `min` (length l - 1)) l)).
Proof.
  intros Hp Hlen. unfold insertCapped.
  assert (Hb : (length l <? rankedServerEntryCount) = false)
    by (apply Nat.ltb_ge; lia).
  rewrite Hb. clear Hb.
  unfold rankedServerEntryCount in Hlen.
  set (q := Z.to_nat p `min` (length l - 1)).
  assert (Hq : Z.to_nat
            (if (Z.of_nat (length l) <=? p)%Z
             then (Z.of_nat (length l) - 1)%Z else p) = q).
  { unfold q. destruct (Z.leb_spec (Z.of_nat (length l)) p); lia. }
  assert (Hneg : ((if (Z.of_nat (length l) <=? p)%Z
             then (Z.of_nat (length l) - 1)%Z else p) <? 0)%Z = false).
  { destruct (Z.leb_spec (Z.of_nat (length l)) p); apply Z.ltb_ge; lia. }
  rewrite Hneg, Hq.
  rewrite shift_insert by (unfold q; lia).
  reflexivity.
Qed.

Lemma removeRanked_sublist id (l : list string) :
  removeRanked id l `sublist_of` l.
Proof.
  induction l as [|x l IH]; simpl; [constructor|].
  destruct (String.eqb x id).
  - apply sublist_cons. reflexivity.
  - apply sublist_skip. exact IH.
Qed.

Lemma removeRanked_not_elem id (l : list string) :
  NoDup l -> id ∉ removeRanked id l.
Proof.
  induction l as [|x l IH]; simpl; intros Hnd.
  - apply not_elem_of_nil.
  - apply NoDup_cons in Hnd as [Hx Hnd].
    destruct (String.eqb x id) eqn:He.
    + apply String.eqb_eq in He. subst x. exact Hx.
    + apply String.eqb_neq in He. rewrite not_elem_of_cons. split; auto.
Qed.

Lemma removeRanked_absent id (l : list string) :
  id ∉ l -> removeRanked id l = l.
Proof.
  induction l as [|x l IH]; simpl; intros Hid; [reflexivity|].
  apply not_elem_of_cons in Hid as [Hne Hid].
  rewrite string_eqb_ne by congruence. rewrite IH by done. reflexivity.
Qed.

(** Inserting an id that is not in the slice: the result. *)
Lemma insertCapped_spec id (p : Z) (l : list string) :
  (0 <= p)%Z ->
  ∃ q k,
    insertCapped id p l = Some (take q l ++ id :: take k (drop q l))
    ∧ q <= Z.to_nat p
    ∧ (length l < rankedServerEntryCount ->
       q = Z.to_nat p `min` length l ∧ take k (drop q l) = drop q l)
    ∧ (rankedServerEntryCount <= length l ->
       length (take q l ++ id :: take k (drop q l)) = length l).
Proof.
  intros Hp.
  destruct (Nat.lt_ge_cases (length l) rankedServerEntryCount) as [Hlt|Hge].
  - exists (Z.to_nat p `min` length l), (length l).
    rewrite insertCapped_below by done.
    rewrite (take_ge (drop _ l)) by (rewrite length_drop; lia).
    split; [reflexivity|]. split; [lia|]. split.
    + intros _. split; reflexivity.
    + intros Hc. lia.
  - exists (Z.to_nat p `min` (length l - 1)),
      (length l - Z.to_nat p `min` (length l - 1) - 1).
    rewrite insertCapped_full by done.
    unfold rankedServerEntryCount in Hge.
    split; [reflexivity|]. split; [lia|]. split.
    + intros Hc. unfold rankedServerEntryCount in Hc. lia.
    + intros _. rewrite length_app, length_take. simpl.
      rewrite length_take, length_drop. lia.
Qed.

Lemma insert_between_NoDup (id : string) (l : list string) q k :
  NoDup l -> id ∉ l -> NoDup (take q l ++ id :: take k (drop q l)).
Proof.
  intros Hnd Hid.
  apply (sublist_NoDup _ (take q l ++ id :: drop q l)).
  - apply NoDup_app. rewrite <- (take_drop q l) in Hnd, Hid.
    apply NoDup_app in Hnd as (H1 & H2 & H3).
    rewrite elem_of_app in Hid.
    split; [exact H1|]. split.
    + intros x Hx. rewrite not_elem_of_cons. split; [|auto].
      intros ->. tauto.
    + apply NoDup_cons. tauto.
  - apply sublist_app; [reflexivity|].
    apply sublist_skip, sublist_take.
Qed.

Lemma insert_between_elem_of (id x : string) (l : list string) q k :
  x ∈ take q l ++ id :: take k (drop q l) -> x = id ∨ x ∈ l.
Proof.
  rewrite elem_of_app, elem_of_cons. intros [H|[H|H]]; auto; right.
  - eapply subseteq_take; eauto.
  - apply subseteq_take in H. eapply subseteq_drop; eauto.
Qed.

Local Open Scope Z_scope.

(** ** Properties of transactions *)

Lemma tx_bind_Ok {A B} (m : Tx A) (f : A -> Tx B) db ns b db' :
  tx_bind m f db = (ns, Ok (b, db')) ->
  ∃ ns1 a db1 ns2,
    m db = (ns1, Ok (a, db1)) ∧ f a db1 = (ns2, Ok (b, db')) ∧
    ns = ns1 ++ ns2.
Proof.
  unfold tx_bind. destruct (m db) as [ns1 [[a db1]|e|]]; try discriminate.
  destruct (f a db1) as [ns2 r] eqn:Hf. intros [= <- ->].
  exists ns1, a, db1, ns2. auto.
Qed.

Lemma tx_for_nil {A} (body : A -> Tx unit) db :
  tx_for [] body db = ([], Ok (tt, db)).
Proof. reflexivity. Qed.

Lemma tx_for_nil_Ok {A} (body : A -> Tx unit) (db db' : DB) ns u :
  tx_for [] body db = (ns, Ok (u, db')) -> db' = db ∧ ns = [].
Proof. rewrite tx_for_nil. intros [=]; subst; auto. Qed.

Lemma tx_for_cons_Ok {A} (x : A) l (body : A -> Tx unit) db ns u db' :
  tx_for (x :: l) body db = (ns, Ok (u, db')) ->
  ∃ ns1 db1 ns2,
    body x db = (ns1, Ok (tt, db1)) ∧
    tx_for l body db1 = (ns2, Ok (u, db')) ∧ ns = ns1 ++ ns2.
Proof.
  simpl. intros H. apply tx_bind_Ok in H as (ns1 & [] & db1 & ns2 & H1 & H2 & ->).
  exists ns1, db1, ns2. auto.
Qed.

Lemma bucket_Get_Ok name key (db db' : DB) ns v :
  bucket_Get name key db = (ns, Ok (v, db')) ->
  ∃ b : Bucket, db !! name = Some b ∧ v = bolt.Get key b ∧ db' = db ∧ ns = [].
Proof.
  unfold bucket_Get. destruct (db !! name) as [b|]; [|discriminate].
  intros [= <- <- <-]. eauto.
Qed.

Lemma bucket_Cursor_Ok name (db db' : DB) ns (items : Bucket) :
  bucket_Cursor name db = (ns, Ok (items, db')) ->
  db !! name = Some items ∧ db' = db ∧ ns = [].
Proof.
  unfold bucket_Cursor. destruct (db !! name) as [b|]; [|discriminate].
  intros [= <- <- <-]. eauto.
Qed.

Lemma bucket_Put_Ok name key value (db db' : DB) ns u :
  bucket_Put name key value db = (ns, Ok (u, db')) ->
  ∃ b : Bucket,
    db !! name = Some b ∧ bolt.Put key value b = Ok (bolt.put key value b) ∧
    db' = <[name := bolt.put key value b]> db ∧ ns = [].
Proof.
  unfold bucket_Put. destruct (db !! name) as [b|]; [|discriminate].
  destruct (bolt.Put key value b) as [b'| |] eqn:HP; try discriminate.
  apply Put_Ok_inv in HP as Hb'. subst b'. intros [= <- <-]. eauto.
Qed.

Lemma tx_lift_Ok {A} (r : Res A) (db db' : DB) ns a :
  tx_lift r db = (ns, Ok (a, db')) -> r = Ok a ∧ db' = db ∧ ns = [].
Proof. unfold tx_lift. destruct r; intros [=]; subst; auto. Qed.

(** What a read-write transaction leaves in the file. *)
Lemma db_Update_Ok {A} (fn : Tx A) w a w' :
  db_Update fn w = (Ok a, w') ->
  ∃ db ns db',
    boltFile w = FileDB db ∧ fn db = (ns, Ok (a, db')) ∧
    boltFile w' = FileDB db' ∧ datastoreDB w' = datastoreDB w ∧
    notices w' = notices w ++ ns.
Proof.
  unfold db_Update. destruct (boltFile w) as [| | |db] eqn:Hf; try discriminate.
  destruct (fn db) as [ns [[a0 db']|e|]] eqn:Hfn; try discriminate.
  destruct (commitFaults w) as [|[] fs]; try discriminate;
    intros [= <- <-]; exists db, ns, db'; simpl; auto.
Qed.

Lemma db_Update_file {A} (fn : Tx A) w r w' :
  db_Update fn w = (r, w') ->
  datastoreDB w' = datastoreDB w ∧
  (boltFile w' = boltFile w ∨
   ∃ db ns a db',
     r = Ok a ∧ boltFile w = FileDB db ∧ fn db = (ns, Ok (a, db')) ∧
     boltFile w' = FileDB db').
Proof.
  unfold db_Update. destruct (boltFile w) as [| | |db] eqn:Hf;
    try (intros [= <- <-]; auto).
  destruct (fn db) as [ns [[a0 db']|e|]] eqn:Hfn;
    try (intros [= <- <-]; simpl; auto).
  destruct (commitFaults w) as [|[] fs]; intros [= <- <-]; simpl;
    (split; [reflexivity|]); eauto 10.
Qed.

Lemma db_Update_Err {A} (fn : Tx A) w e w' :
  db_Update fn w = (Err e, w') ->
  boltFile w' = boltFile w ∧ datastoreDB w' = datastoreDB w.
Proof.
  intros H. apply db_Update_file in H as [Hh [Hf|(db & ns & a & db' & Hr & _)]].
  - auto.
  - discriminate.
Qed.

Lemma dataStoreUpdate_Ok {A} (fn : Tx A) w a w' :
  dataStoreUpdate fn w = (Ok a, w') ->
  datastoreDB w = true ∧
  ∃ db ns db',
    boltFile w = FileDB db ∧ fn db = (ns, Ok (a, db')) ∧
    boltFile w' = FileDB db' ∧ datastoreDB w' = true ∧
    notices w' = notices w ++ ns.
Proof.
  unfold dataStoreUpdate. destruct (datastoreDB w) eqn:Hh; [|discriminate].
  intros H. split; [reflexivity|].
  apply db_Update_Ok in H as (db & ns & db' & H1 & H2 & H3 & H4 & H5).
  exists db, ns, db'. rewrite H4. auto.
Qed.

Lemma dataStoreUpdate_file {A} (fn : Tx A) w r w' :
  dataStoreUpdate fn w = (r, w') ->
  datastoreDB w' = datastoreDB w ∧
  (boltFile w' = boltFile w ∨
   ∃ db ns a db',
     r = Ok a ∧ boltFile w = FileDB db ∧ fn db = (ns, Ok (a, db')) ∧
     boltFile w' = FileDB db').
Proof.
  unfold dataStoreUpdate. destruct (datastoreDB w) eqn:Hh.
  - intros H. apply db_Update_file in H. rewrite Hh in H. exact H.
  - intros [= <- <-]. auto.
Qed.

Lemma dataStoreUpdate_Err {A} (fn : Tx A) w e w' :
  dataStoreUpdate fn w = (Err e, w') ->
  boltFile w' = boltFile w ∧ datastoreDB w' = datastoreDB w.
Proof.
  intros H. apply dataStoreUpdate_file in H
    as [Hh [Hf|(db & ns & a & db' & Hr & _)]].
  - auto.
  - discriminate.
Qed.

Lemma db_View_file {A} (fn : Tx A) w r w' :
  db_View fn w = (r, w') ->
  boltFile w' = boltFile w ∧ datastoreDB w' = datastoreDB w ∧
  commitFaults w' = commitFaults w.
Proof.
  unfold db_View. destruct (boltFile w) as [| | |db] eqn:Hf;
    try (intros [= <- <-]; auto).
  destruct (fn db) as [ns [[a0 db']|e|]]; intros [= <- <-]; simpl; auto.
Qed.

Lemma dataStoreView_file {A} (fn : Tx A) w r w' :
  dataStoreView fn w = (r, w') ->
  boltFile w' = boltFile w ∧ datastoreDB w' = datastoreDB w ∧
  commitFaults w' = commitFaults w.
Proof.
  unfold dataStoreView. destruct (datastoreDB w) eqn:Hh.
  - intros H. apply db_View_file in H. rewrite Hh in H. exact H.
  - intros [= <- <-]. auto.
Qed.

Lemma dataStoreView_Ok {A} (fn : Tx A) w a w' :
  dataStoreView fn w = (Ok a, w') ->
  datastoreDB w = true ∧
  ∃ db ns db', boltFile w = FileDB db ∧ fn db = (ns, Ok (a, db')).
Proof.
  unfold dataStoreView, db_View. destruct (datastoreDB w); [|discriminate].
  destruct (boltFile w) as [| | |db]; try discriminate.
  destruct (fn db) as [ns [[a0 db']|e|]] eqn:Hfn; try discriminate.
  intros [= <- <-]. eauto 10.
Qed.

(** ** Frames: the buckets a transaction may write *)

(** [db'] differs from [db] in the buckets [names] at most, and has every
    bucket that [db] has. *)
Definition unchanged_outside (names : list string) (db db' : DB) : Prop :=
  (∀ n, n ∉ names -> db' !! n = db !! n) ∧
  (∀ n, is_Some (db !! n) -> is_Some (db' !! n)).

Definition Frames {A} (names : list string) (fn : Tx A) : Prop :=
  ∀ db ns a db', fn db = (ns, Ok (a, db')) -> unchanged_outside names db db'.

Lemma unchanged_outside_refl names db : unchanged_outside names db db.
Proof. split; auto. Qed.

Lemma unchanged_outside_trans names db1 db2 db3 :
  unchanged_outside names db1 db2 -> unchanged_outside names db2 db3 ->
  unchanged_outside names db1 db3.
Proof.
  intros [H1 H2] [H3 H4]. split.
  - intros n Hn. rewrite H3, H1 by done. reflexivity.
  - auto.
Qed.

Lemma unchanged_outside_mono names names' db db' :
  names ⊆ names' -> unchanged_outside names db db' ->
  unchanged_outside names' db db'.
Proof. intros Hsub [H1 H2]. split; [|done]. intros n Hn. apply H1. set_solver. Qed.

Lemma unchanged_outside_insert name (b : Bucket) (db : DB) :
  unchanged_outside [name] db (<[name := b]> db).
Proof.
  split.
  - intros n Hn. apply lookup_insert_ne. set_solver.
  - intros n Hs. destruct (decide (name = n)) as [->|Hne].
    + rewrite lookup_insert_eq. eauto.
    + rewrite lookup_insert_ne by done. exact Hs.
Qed.

Lemma Frames_mono {A} names names' (fn : Tx A) :
  names ⊆ names' -> Frames names fn -> Frames names' fn.
Proof.
  intros Hsub H db ns a db' Hfn.
  eapply unchanged_outside_mono; eauto.
Qed.

Lemma Frames_ret {A} names (a : A) : Frames names (tx_ret a).
Proof. intros db ns a' db' [=]; subst. apply unchanged_outside_refl. Qed.

Lemma Frames_emit names ns : Frames names (tx_emit ns).
Proof. intros db ns' a' db' [=]; subst. apply unchanged_outside_refl. Qed.

Lemma Frames_fail {A} names e : Frames names (@tx_fail A e).
Proof. intros db ns a db' [=]. Qed.

Lemma Frames_panic {A} names : Frames names (@tx_panic A).
Proof. intros db ns a db' [=]. Qed.

Lemma Frames_lift {A} names (r : Res A) : Frames names (tx_lift r).
Proof.
  intros db ns a db'. unfold tx_lift. destruct r; intros [=]; subst.
  apply unchanged_outside_refl.
Qed.

Lemma Frames_bind {A B} names (m : Tx A) (f : A -> Tx B) :
  Frames names m -> (∀ a, Frames names (f a)) -> Frames names (tx_bind m f).
Proof.
  intros Hm Hf db ns b db' H.
  apply tx_bind_Ok in H as (ns1 & a & db1 & ns2 & H1 & H2 & _).
  eapply unchanged_outside_trans; [eapply Hm | eapply Hf]; eauto.
Qed.

Lemma Frames_for {A} names (l : list A) (body : A -> Tx unit) :
  (∀ x, x ∈ l -> Frames names (body x)) -> Frames names (tx_for l body).
Proof.
  induction l as [|x l IH]; intros Hb.
  - apply Frames_ret.
  - simpl. apply Frames_bind.
    + apply Hb. set_solver.
    + intros _. apply IH. intros y Hy. apply Hb. set_solver.
Qed.

Lemma Frames_Get names name key : Frames names (bucket_Get name key).
Proof.
  intros db ns a db'. unfold bucket_Get.
  destruct (db !! name); intros [=]; subst. apply unchanged_outside_refl.
Qed.

Lemma Frames_Cursor names name : Frames names (bucket_Cursor name).
Proof.
  intros db ns a db'. unfold bucket_Cursor.
  destruct (db !! name); intros [=]; subst. apply unchanged_outside_refl.
Qed.

Lemma Frames_Put name key value : Frames [name] (bucket_Put name key value).
Proof.
  intros db ns a db'. unfold bucket_Put.
  destruct (db !! name); [|discriminate].
  destruct (bolt.Put key value _); intros [=]; subst.
  apply unchanged_outside_insert.
Qed.

Lemma Frames_Delete name key : Frames [name] (bucket_Delete name key).
Proof.
  intros db ns a db'. unfold bucket_Delete.
  destruct (db !! name); intros [=]; subst.
  apply unchanged_outside_insert.
Qed.

Lemma Frames_CreateBucketIfNotExists name :
  Frames [name] (tx_CreateBucketIfNotExists name).
Proof.
  intros db ns a db'. unfold tx_CreateBucketIfNotExists.
  destruct (db !! name); intros [=]; subst.
  - apply unchanged_outside_refl.
  - apply unchanged_outside_insert.
Qed.

(** ** What the proofs assume of the collaborators *)

(** The ids of the entries that the validator accepts. *)
Definition validServerEntryId (ip : string) : Prop :=
  ∃ f, ValidateServerEntryFields f = None ∧ GetIPAddress f = ip.

(** [encoding/json] gives back a slice of strings that it encoded, for
    strings that are IP addresses of validated entries ([json.Marshal]
    replaces bytes that are not valid UTF-8, so this is not assumed of
    every string). *)
Class ExternalLaws : Prop := {
  json_strings_roundtrip :
    ∀ ids data,
      Forall validServerEntryId ids ->
      json_Marshal_strings ids = Ok data ->
      json_Unmarshal_strings data = Ok ids;
}.

Section Laws.
Context {laws : ExternalLaws}.

(** ** The ranked vector in the database *)

Lemma getRanked_frame (db db' : DB) ns r :
  db' !! rankedServerEntriesBucket = db !! rankedServerEntriesBucket ->
  getRankedServerEntries db = (ns, Ok (r, db)) ->
  getRankedServerEntries db' = (ns, Ok (r, db')).
Proof.
  unfold getRankedServerEntries, tx_bind, bucket_Get. intros ->.
  destruct (db !! rankedServerEntriesBucket) as [b|]; [|discriminate].
  destruct (bolt.Get rankedServerEntriesKey b) as [data|]; simpl.
  - destruct (json_Unmarshal_strings data); simpl; intros [=]; subst; done.
  - intros [=]; subst; done.
Qed.

Lemma getRanked_Ok (db db' : DB) ns r :
  getRankedServerEntries db = (ns, Ok (r, db')) -> ns = [] ∧ db' = db.
Proof.
  unfold getRankedServerEntries, tx_bind, bucket_Get.
  destruct (db !! rankedServerEntriesBucket) as [b|]; [|discriminate].
  destruct (bolt.Get rankedServerEntriesKey b) as [data|]; simpl.
  - destruct (json_Unmarshal_strings data); simpl; intros [=]; subst; done.
  - intros [=]; subst; done.
Qed.

Lemma setRanked_Ok (db db' : DB) ids ns u :
  Forall validServerEntryId ids ->
  setRankedServerEntries ids db = (ns, Ok (u, db')) ->
  ns = [] ∧ getRankedServerEntries db' = ([], Ok (ids, db')) ∧
  unchanged_outside [rankedServerEntriesBucket] db db'.
Proof.
  intros Hvalid. unfold setRankedServerEntries.
  destruct (json_Marshal_strings ids) as [data| |] eqn:Hm; try discriminate.
  intros Hput. pose proof (Frames_Put _ _ _ _ _ _ _ Hput) as Hframe.
  unfold bucket_Put in Hput.
  destruct (db !! rankedServerEntriesBucket) as [b|]; [|discriminate].
  destruct (bolt.Put rankedServerEntriesKey data b) as [b'| |] eqn:HP;
    try discriminate.
  injection Hput as <- _ <-. apply Put_Ok_inv in HP. subst b'.
  split; [reflexivity|]. split; [|exact Hframe].
  unfold getRankedServerEntries, tx_bind, bucket_Get.
  rewrite lookup_insert_eq, Get_put_eq.
  rewrite (json_strings_roundtrip ids data Hvalid Hm). reflexivity.
Qed.

(** [insertRankedServerEntry] on a database whose ranked vector is [R]. *)
Lemma insertRanked_Ok (db db' : DB) R id (p : Z) ns u :
  (0 <= p)%Z ->
  getRankedServerEntries db = ([], Ok (R, db)) ->
  Forall validServerEntryId R -> validServerEntryId id ->
  insertRankedServerEntry id p db = (ns, Ok (u, db')) ->
  ∃ R',
    insertCapped id p (removeRanked id R) = Some R' ∧
    getRankedServerEntries db' = ([], Ok (R', db')) ∧
    Forall validServerEntryId R' ∧
    unchanged_outside [rankedServerEntriesBucket] db db' ∧ ns = [].
Proof.
  intros Hp HR Hvalid Hid H. unfold insertRankedServerEntry in H.
  apply tx_bind_Ok in H as (ns1 & R0 & db1 & ns2 & H1 & H2 & ->).
  rewrite HR in H1. injection H1 as <- <- <-.
  destruct (insertCapped_spec id p (removeRanked id R) Hp)
    as (q & k & Hins & _).
  rewrite Hins in H2 |- *.
  assert (Hv : Forall validServerEntryId
                 (take q (removeRanked id R)
                  ++ id :: take k (drop q (removeRanked id R)))).
  { apply Forall_forall. intros x Hx.
    apply insert_between_elem_of in Hx as [->|Hx]; [exact Hid|].
    apply (sublist_subseteq _ _ (removeRanked_sublist id R)) in Hx.
    rewrite Forall_forall in Hvalid. auto. }
  apply setRanked_Ok in H2 as (-> & Hget & Hframe); [|exact Hv].
  eexists. split; [reflexivity|]. auto.
Qed.

(** ** The invariant of the database *)

(** The buckets that [OpenDataStore] leaves in the file. *)
Definition liveBuckets : list string :=
  [ serverEntriesBucket; rankedServerEntriesBucket;
    splitTunnelRouteETagsBucket; splitTunnelRouteDataBucket;
    urlETagsBucket; keyValueBucket; remoteServerListStatsBucket;
    slokBucket; tacticsBucket; speedTestSamplesBucket ].

Record DBInv (db : DB) : Prop := mkDBInv {
  inv_buckets : ∀ n, n ∈ liveBuckets -> is_Some (db !! n);
  inv_ranked :
    ∃ R, getRankedServerEntries db = ([], Ok (R, db)) ∧
         (length R <= rankedServerEntryCount)%nat ∧ NoDup R ∧
         Forall validServerEntryId R;
  inv_entries :
    ∀ (b : Bucket) ip,
      db !! serverEntriesBucket = Some b -> ip ∈ bolt.keys b ->
      validServerEntryId ip;
}.

Lemma DBInv_frame names (db db' : DB) :
  serverEntriesBucket ∉ names -> rankedServerEntriesBucket ∉ names ->
  unchanged_outside names db db' -> DBInv db -> DBInv db'.
Proof.
  intros Hs Hr [Hout Hsome] [Hb (R & HR & Hlen & Hnd & Hv) He].
  split.
  - intros n Hn. apply Hsome, Hb, Hn.
  - exists R. split; [|auto].
    apply (getRanked_frame db db'); [apply Hout, Hr | exact HR].
  - intros b ip Hl. rewrite Hout in Hl by done. eauto.
Qed.

(** Removing the id and inserting it under the cap keeps a vector short
    and free of duplicates. *)
Lemma insertCapped_removeRanked_inv id (p : Z) (R R' : list string) :
  (0 <= p)%Z -> NoDup R -> (length R <= rankedServerEntryCount)%nat ->
  insertCapped id p (removeRanked id R) = Some R' ->
  NoDup R' ∧ (length R' <= rankedServerEntryCount)%nat.
Proof.
  intros Hp Hnd Hlen Hins.
  pose proof (removeRanked_sublist id R) as Hsub.
  pose proof (sublist_length _ _ Hsub) as Hl.
  destruct (insertCapped_spec id p (removeRanked id R) Hp)
    as (q & k & Heq & Hq & Hbelow & Hfull).
  rewrite Heq in Hins. injection Hins as <-. split.
  - apply insert_between_NoDup.
    + eapply sublist_NoDup; eauto.
    + apply removeRanked_not_elem, Hnd.
  - destruct (Nat.lt_ge_cases (length (removeRanked id R))
                rankedServerEntryCount) as [Hlt|Hge].
    + destruct (Hbelow Hlt) as [-> ->].
      rewrite length_app. simpl. rewrite length_take, length_drop.
      unfold rankedServerEntryCount in *. lia.
    + rewrite (Hfull Hge). lia.
Qed.

Ltac names_differ :=
  rewrite ?elem_of_cons, ?elem_of_nil; intuition discriminate.

Ltac name_is_live :=
  unfold liveBuckets; rewrite ?elem_of_cons, ?elem_of_nil; tauto.

Lemma Frames_keeps_DBInv {A} names (fn : Tx A) db ns a db' :
  Frames names fn ->
  serverEntriesBucket ∉ names -> rankedServerEntriesBucket ∉ names ->
  fn db = (ns, Ok (a, db')) -> DBInv db -> DBInv db'.
Proof.
  intros HF Hs Hr Hfn. eapply DBInv_frame; eauto.
Qed.

Lemma storeServerEntryTx_keeps_DBInv f replaceIfExists db ns u db' :
  ValidateServerEntryFields f = None ->
  storeServerEntryTx f replaceIfExists db = (ns, Ok (u, db')) ->
  DBInv db -> DBInv db'.
Proof.
  intros Hvalid H Hinv. unfold storeServerEntryTx in H.
  apply tx_bind_Ok in H as (ns1 & existingData & db1 & ns2 & H1 & H & ->).
  apply Frames_Get with (names := []) in H1 as Hf1.
  apply tx_bind_Ok in H as (ns3 & ver & db2 & ns4 & H2 & H & ->).
  apply Frames_lift with (names := []) in H2 as Hf2.
  assert (Hinv2 : DBInv db2).
  { eapply DBInv_frame; [| |exact Hf2|]; [names_differ..|].
    eapply DBInv_frame; [| |exact Hf1|]; [names_differ..|]. exact Hinv. }
  clear H1 H2 Hf1 Hf2 Hinv.
  destruct (negb _) eqn:Hupd in H.
  { unfold tx_ret in H. simplify_eq. exact Hinv2. }
  destruct (json_Marshal_ServerEntryFields f) as [data| |]; try discriminate.
  apply tx_bind_Ok in H as (ns5 & [] & db3 & ns6 & HP & H & ->).
  apply tx_bind_Ok in H as (ns7 & [] & db4 & ns8 & HI & H & ->).
  assert (db4 = db') as <- by (injection H; auto). clear H.
  assert (Hid : validServerEntryId (GetIPAddress f)) by (exists f; auto).
  pose proof (Frames_Put _ _ _ _ _ _ _ HP) as HfP.
  destruct Hinv2 as [Hb (R & HR & Hlen & Hnd & Hv) He].
  assert (HR3 : getRankedServerEntries db3 = ([], Ok (R, db3))).
  { apply (getRanked_frame db2 db3); [|exact HR].
    apply HfP. names_differ. }
  destruct (insertRanked_Ok db3 db4 R _ 1 _ _ ltac:(lia) HR3 Hv Hid HI)
    as (R' & Hins & HR4 & Hv4 & HfI & _).
  destruct (insertCapped_removeRanked_inv _ 1 _ _ ltac:(lia) Hnd Hlen Hins)
    as [Hnd' Hlen'].
  split.
  - intros n Hn. apply HfI, HfP, Hb, Hn.
  - exists R'. auto.
  - intros b ip Hl Hip.
    destruct HfI as [HfI _]. rewrite HfI in Hl by names_differ.
    unfold bucket_Put in HP.
    destruct (db2 !! serverEntriesBucket) as [b2|] eqn:Hb2; [|discriminate].
    destruct (bolt.Put (GetIPAddress f) data b2) as [b3| |] eqn:HPut;
      try discriminate.
    apply Put_Ok_inv in HPut. simplify_eq.
    rewrite lookup_insert_eq in Hl. simplify_eq.
    apply elem_of_keys_put in Hip as [->|Hip]; [exact Hid|].
    eapply He; eauto.
Qed.

Lemma promoteServerEntryTx_keeps_DBInv cfg ip db ns u db' :
  promoteServerEntryTx cfg ip db = (ns, Ok (u, db')) ->
  DBInv db -> DBInv db'.
Proof.
  intros H Hinv. unfold promoteServerEntryTx in H.
  apply tx_bind_Ok in H as (ns1 & data & db1 & ns2 & H1 & H & ->).
  unfold bucket_Get in H1.
  destruct (db !! serverEntriesBucket) as [b|] eqn:Hb; [|discriminate].
  injection H1 as <- <- <-.
  destruct (bolt.Get ip b) as [v|] eqn:Hget.
  2:{ unfold tx_notice, tx_emit in H. simplify_eq. exact Hinv. }
  apply tx_bind_Ok in H as (ns3 & [] & db2 & ns4 & HI & H & ->).
  assert (HfP : unchanged_outside [keyValueBucket] db2 db').
  { revert H. apply Frames_bind.
    - apply Frames_lift.
    - intros a. apply Frames_Put. }
  destruct Hinv as [Hbs (R & HR & Hlen & Hnd & Hv) He].
  assert (Hid : validServerEntryId ip).
  { eapply He; eauto. eapply Get_Some_elem_of_keys; eauto. }
  destruct (insertRanked_Ok db db2 R _ 0 _ _ ltac:(lia) HR Hv Hid HI)
    as (R' & Hins & HR2 & Hv2 & HfI & _).
  destruct (insertCapped_removeRanked_inv _ 0 _ _ ltac:(lia) Hnd Hlen Hins)
    as [Hnd' Hlen'].
  eapply DBInv_frame; [| |exact HfP|]; [names_differ..|].
  split.
  - intros n Hn. apply HfI, Hbs, Hn.
  - exists R'. auto.
  - intros b' ip' Hl. destruct HfI as [HfI _].
    rewrite HfI in Hl by names_differ. eauto.
Qed.

(** ** The invariant of the process state *)

Definition WorldInv (w : World) : Prop :=
  ∃ db, boltFile w = FileDB db ∧ DBInv db.

Lemma WorldInv_file w w' :
  boltFile w' = boltFile w -> WorldInv w -> WorldInv w'.
Proof. intros Hf (db & Hdb & Hinv). exists db. rewrite Hf. auto. Qed.

Lemma db_Update_keeps {A} (fn : Tx A) w r w' :
  (∀ db ns a db', fn db = (ns, Ok (a, db')) -> DBInv db -> DBInv db') ->
  db_Update fn w = (r, w') -> WorldInv w -> WorldInv w'.
Proof.
  intros Hfn H Hw.
  apply db_Update_file in H as [_ [Hf|(db & ns & a & db' & _ & Hdb & Hrun & Hf)]].
  - eapply WorldInv_file; eauto.
  - destruct Hw as (db0 & Hdb0 & Hinv).
    rewrite Hdb in Hdb0. injection Hdb0 as <-.
    exists db'. split; [exact Hf|]. eapply Hfn; eauto.
Qed.

Lemma dataStoreUpdate_keeps {A} (fn : Tx A) w r w' :
  (∀ db ns a db', fn db = (ns, Ok (a, db')) -> DBInv db -> DBInv db') ->
  dataStoreUpdate fn w = (r, w') -> WorldInv w -> WorldInv w'.
Proof.
  intros Hfn H. unfold dataStoreUpdate in H. destruct (datastoreDB w).
  - eapply db_Update_keeps; eauto.
  - simplify_eq. auto.
Qed.

Lemma dataStoreView_keeps {A} (fn : Tx A) w r w' :
  dataStoreView fn w = (r, w') -> WorldInv w -> WorldInv w'.
Proof.
  intros H. apply dataStoreView_file in H as (Hf & _). apply WorldInv_file, Hf.
Qed.

Lemma StoreServerEntry_keeps f replaceIfExists w r w' :
  StoreServerEntry f replaceIfExists w = (r, w') -> WorldInv w -> WorldInv w'.
Proof.
  unfold StoreServerEntry.
  destruct (ValidateServerEntryFields f) eqn:Hvalid.
  - intros; simplify_eq; auto.
  - apply dataStoreUpdate_keeps. intros db ns a db'.
    apply storeServerEntryTx_keeps_DBInv, Hvalid.
Qed.

Lemma StoreServerEntries_keeps cfg fs replaceIfExists w r w' :
  StoreServerEntries cfg fs replaceIfExists w = (r, w') ->
  WorldInv w -> WorldInv w'.
Proof.
  revert w. induction fs as [|f fs IH]; simpl; intros w H Hw.
  - simplify_eq. exact Hw.
  - destruct (StoreServerEntry f replaceIfExists w) as [[[]|e|] w1] eqn:Hs;
      apply StoreServerEntry_keeps in Hs; auto; simplify_eq; eauto.
Qed.

Lemma StreamingStoreServerEntries_keeps cfg dec replaceIfExists w r w' :
  StreamingStoreServerEntries cfg dec replaceIfExists w = (r, w') ->
  WorldInv w -> WorldInv w'.
Proof.
  revert w. induction dec as [|[f|e|] dec IH]; simpl; intros w H Hw;
    try (simplify_eq; exact Hw).
  destruct (StoreServerEntry f replaceIfExists w) as [[[]|e|] w1] eqn:Hs;
    apply StoreServerEntry_keeps in Hs; auto; simplify_eq; eauto.
Qed.

Lemma PromoteServerEntry_keeps cfg ip w r w' :
  PromoteServerEntry cfg ip w = (r, w') -> WorldInv w -> WorldInv w'.
Proof.
  apply dataStoreUpdate_keeps. intros db ns a db'.
  apply promoteServerEntryTx_keeps_DBInv.
Qed.

Lemma hasServerEntryFilterChanged_keeps cfg w r w' :
  hasServerEntryFilterChanged cfg w = (r, w') -> WorldInv w -> WorldInv w'.
Proof. unfold hasServerEntryFilterChanged. simpl. apply dataStoreView_keeps. Qed.

Lemma shuffleLoop_file n h ids w r w' :
  shuffleLoop n h ids w = (r, w') -> boltFile w' = boltFile w.
Proof.
  revert ids w. induction n as [|i IH]; simpl; intros ids w H.
  - simplify_eq. reflexivity.
  - destruct (h - 1 <? Z.of_nat i); [|simplify_eq; reflexivity].
    destruct (rand_Intn _ w) as [d w1] eqn:Hrand.
    assert (Hw1 : boltFile w1 = boltFile w).
    { unfold rand_Intn in Hrand. destruct (randSource w); simplify_eq; done. }
    destruct (swap ids i (d + h)); [|simplify_eq; exact Hw1].
    apply IH in H. congruence.
Qed.

Lemma Reset_keeps it w r w' :
  Reset it w = (r, w') -> WorldInv w -> WorldInv w'.
Proof.
  unfold Reset. intros H Hw. destruct (isTargetServerEntryIterator it).
  { simplify_eq; auto. }
  destruct (dataStoreView resetTx w) as [[ids|e|] w1] eqn:Hv;
    pose proof (dataStoreView_keeps _ _ _ _ Hv Hw) as Hw1;
    try (simplify_eq; exact Hw1).
  destruct (shuffleLoop _ _ ids w1) as [[l|e|] w2] eqn:Hs;
    apply shuffleLoop_file in Hs; simplify_eq;
    eapply WorldInv_file; eauto.
Qed.

Lemma newTargetServerEntryIterator_keeps cfg isTactics w r w' :
  newTargetServerEntryIterator cfg isTactics w = (r, w') ->
  WorldInv w -> WorldInv w'.
Proof.
  unfold newTargetServerEntryIterator.
  intros H Hw. cbv zeta in H.
  destruct (DecodeServerEntry _); try (simplify_eq; exact Hw).
  repeat match type of H with context [if ?c then _ else _] =>
    destruct c end;
    simplify_eq; try exact Hw;
    (eapply WorldInv_file; [|eassumption]; reflexivity).
Qed.

Lemma NewServerEntryIterator_keeps cfg w r w' :
  NewServerEntryIterator cfg w = (r, w') -> WorldInv w -> WorldInv w'.
Proof.
  unfold NewServerEntryIterator. destruct (negb _).
  { apply newTargetServerEntryIterator_keeps. }
  intros H Hw.
  destruct (hasServerEntryFilterChanged cfg w) as [[c|e|] w1] eqn:Hc;
    pose proof (hasServerEntryFilterChanged_keeps _ _ _ _ Hc Hw) as Hw1;
    try (simplify_eq; exact Hw1).
  destruct (Reset _ w1) as [[it|e|] w2] eqn:HR;
    pose proof (Reset_keeps _ _ _ _ HR Hw1); simplify_eq; auto.
Qed.

Lemma NewTacticsServerEntryIterator_keeps cfg w r w' :
  NewTacticsServerEntryIterator cfg w = (r, w') -> WorldInv w -> WorldInv w'.
Proof.
  unfold NewTacticsServerEntryIterator. intros H Hw. destruct (negb _).
  - destruct (newTargetServerEntryIterator cfg true w) as [[[? it]|e|] w1] eqn:Ht;
      pose proof (newTargetServerEntryIterator_keeps _ _ _ _ _ Ht Hw);
      simplify_eq; auto.
  - destruct (Reset _ w) as [[it|e|] w1] eqn:HR;
      pose proof (Reset_keeps _ _ _ _ HR Hw); simplify_eq; auto.
Qed.

Lemma Frames_takeOutTx maxCount statTypes count stats :
  Frames statTypes (takeOutTx maxCount statTypes count stats).
Proof.
  revert count stats. induction statTypes as [|statType rest IH];
    intros count stats; simpl.
  - apply Frames_ret.
  - apply Frames_bind; [apply Frames_Cursor|]. intros items.
    destruct (takeOutLoop maxCount items count (statsOf stats statType))
      as [ns [count' taken]].
    apply Frames_bind; [apply Frames_emit|]. intros _.
    apply Frames_bind.
    + apply Frames_for. intros key _.
      eapply Frames_mono; [|apply Frames_Put]. set_solver.
    + intros _. eapply Frames_mono; [|apply IH]. set_solver.
Qed.

Lemma Frames_stats_for {A} (body : string -> A -> Tx unit)
    (keysOf : string -> list A) statTypes :
  (∀ statType key, Frames [statType] (body statType key)) ->
  Frames statTypes
    (tx_for statTypes (fun statType =>
       tx_for (keysOf statType) (fun key => body statType key))).
Proof.
  intros Hbody. apply Frames_for. intros statType Hin.
  apply Frames_for. intros key _.
  eapply Frames_mono; [|apply Hbody]. set_solver.
Qed.

Lemma Frames_setSplitTunnelRoutesTx region etag data :
  Frames [splitTunnelRouteETagsBucket; splitTunnelRouteDataBucket]
    (setSplitTunnelRoutesTx region etag data).
Proof.
  intros db ns a db' H. unfold setSplitTunnelRoutesTx in H.
  destruct (bucket_Put splitTunnelRouteETagsBucket region etag db)
    as [ns1 [[[] db1]|e|]] eqn:H1; try discriminate.
  - destruct (bucket_Put splitTunnelRouteDataBucket region data db1)
      as [ns2 r] eqn:H2. simplify_eq.
    apply Frames_Put in H1, H2.
    apply (unchanged_outside_trans _ db db1 db').
    + eapply unchanged_outside_mono; [|exact H1]. set_solver.
    + eapply unchanged_outside_mono; [|exact H2]. set_solver.
  - destruct (bucket_Put splitTunnelRouteDataBucket region data db)
      as [ns2 r] eqn:H2. simplify_eq.
    apply Frames_Put in H2.
    eapply unchanged_outside_mono; [|exact H2]. set_solver.
Qed.

Lemma persistentStatTypes_not_entries :
  (serverEntriesBucket ∉ persistentStatTypes) ∧
  (rankedServerEntriesBucket ∉ persistentStatTypes).
Proof. unfold persistentStatTypes. split; names_differ. Qed.

Lemma Contains_elem_of l s : Contains l s = true -> s ∈ l.
Proof.
  unfold Contains. rewrite existsb_exists. intros (x & Hx & He).
  apply String.eqb_eq in He. subst x. apply list_elem_of_In, Hx.
Qed.

Lemma stats_update_keeps {A} (fn : Tx A) w r w' :
  Frames persistentStatTypes fn ->
  dataStoreUpdate fn w = (r, w') -> WorldInv w -> WorldInv w'.
Proof.
  intros HF. apply dataStoreUpdate_keeps. intros db ns a db'.
  destruct persistentStatTypes_not_entries.
  eapply Frames_keeps_DBInv; eauto.
Qed.

Lemma StorePersistentStat_keeps statType stat w r w' :
  StorePersistentStat statType stat w = (r, w') -> WorldInv w -> WorldInv w'.
Proof.
  unfold StorePersistentStat.
  destruct (Contains persistentStatTypes statType) eqn:Hc; simpl.
  - apply Contains_elem_of in Hc. apply stats_update_keeps.
    eapply Frames_mono; [|apply Frames_Put]. set_solver.
  - intros; simplify_eq; auto.
Qed.

Lemma CountUnreportedPersistentStats_keeps w n w' :
  CountUnreportedPersistentStats w = (n, w') -> WorldInv w -> WorldInv w'.
Proof.
  unfold CountUnreportedPersistentStats. intros H Hw.
  destruct (dataStoreView _ w) as [[c|e|] w1] eqn:Hv;
    pose proof (dataStoreView_keeps _ _ _ _ Hv Hw); simplify_eq; auto;
    (eapply WorldInv_file; [|eassumption]; reflexivity).
Qed.

Lemma TakeOutUnreportedPersistentStats_keeps maxCount w r w' :
  TakeOutUnreportedPersistentStats maxCount w = (r, w') ->
  WorldInv w -> WorldInv w'.
Proof. apply stats_update_keeps, Frames_takeOutTx. Qed.

Lemma PutBackUnreportedPersistentStats_keeps stats w r w' :
  PutBackUnreportedPersistentStats stats w = (r, w') ->
  WorldInv w -> WorldInv w'.
Proof.
  apply stats_update_keeps.
  apply (Frames_stats_for
           (fun statType key =>
              bucket_Put statType key persistentStatStateUnreported)).
  intros. apply Frames_Put.
Qed.

Lemma ClearReportedPersistentStats_keeps stats w r w' :
  ClearReportedPersistentStats stats w = (r, w') ->
  WorldInv w -> WorldInv w'.
Proof.
  apply stats_update_keeps.
  apply (Frames_stats_for (fun statType key => bucket_Delete statType key)).
  intros. apply Frames_Delete.
Qed.

Lemma resetAllPersistentStatsToUnreported_keeps w r w' :
  resetAllPersistentStatsToUnreported w = (r, w') ->
  WorldInv w -> WorldInv w'.
Proof.
  apply stats_update_keeps. apply Frames_for. intros statType Hin.
  unfold resetBucketToUnreported.
  apply Frames_bind; [apply Frames_Cursor|]. intros items.
  apply Frames_for. intros key _.
  eapply Frames_mono; [|apply Frames_Put]. set_solver.
Qed.

Lemma SetSplitTunnelRoutes_keeps region etag data w r w' :
  SetSplitTunnelRoutes region etag data w = (r, w') ->
  WorldInv w -> WorldInv w'.
Proof.
  apply dataStoreUpdate_keeps. intros db ns a db'.
  eapply Frames_keeps_DBInv;
    [apply Frames_setSplitTunnelRoutesTx|names_differ..].
Qed.

(** *** OpenDataStore and the invariant *)

(** The database that [OpenDataStore] makes of a file that did not exist:
    the live buckets, all empty. *)
Definition initialDB : DB :=
  list_to_map ((fun n => (n, [])) <$> liveBuckets).

Lemma createBuckets_empty :
  tx_for requiredBuckets tx_CreateBucketIfNotExists ∅
  = ([], Ok (tt, <[tunnelStatsBucket := []]> initialDB)).
Proof. vm_compute. reflexivity. Qed.

Lemma deleteObsoleteBucket_created :
  deleteObsoleteBucket (<[tunnelStatsBucket := []]> initialDB)
  = ([], Ok (tt, initialDB)).
Proof. vm_compute. reflexivity. Qed.

Lemma initialDB_lookup n :
  n ∈ liveBuckets -> initialDB !! n = Some [].
Proof.
  unfold liveBuckets. rewrite !elem_of_cons, elem_of_nil.
  intros H. repeat destruct H as [->|H]; try (vm_compute; reflexivity).
  destruct H.
Qed.

Lemma DBInv_initialDB : DBInv initialDB.
Proof.
  split.
  - intros n Hn. rewrite initialDB_lookup by done. eauto.
  - exists []. split.
    { unfold getRankedServerEntries, tx_bind, bucket_Get.
      rewrite initialDB_lookup by name_is_live. reflexivity. }
    split; [simpl; lia|]. split; constructor.
  - intros b ip Hb. rewrite initialDB_lookup in Hb by name_is_live.
    simplify_eq. intros Hip. apply elem_of_nil in Hip. destruct Hip.
Qed.

Lemma DBInv_agree (db db' : DB) :
  (∀ n, n ∈ liveBuckets -> db' !! n = db !! n) -> DBInv db -> DBInv db'.
Proof.
  intros Hag [Hb (R & HR & Hrest) He]. split.
  - intros n Hn. rewrite Hag by done. auto.
  - exists R. split; [|exact Hrest].
    apply (getRanked_frame db db'); [|exact HR]. apply Hag. name_is_live.
  - intros b ip Hl. rewrite Hag in Hl by name_is_live. eauto.
Qed.

Lemma createBuckets_existing l (db db' : DB) ns u :
  tx_for l tx_CreateBucketIfNotExists db = (ns, Ok (u, db')) ->
  ∀ n, is_Some (db !! n) -> db' !! n = db !! n.
Proof.
  revert db ns. induction l as [|name l IH]; intros db ns H n Hn.
  - rewrite tx_for_nil in H. simplify_eq. reflexivity.
  - apply tx_for_cons_Ok in H as (ns1 & db1 & ns2 & H1 & H2 & _).
    unfold tx_CreateBucketIfNotExists in H1.
    destruct (db !! name) eqn:Hname; simplify_eq.
    + eapply IH; eauto.
    + assert (name ≠ n) by (intros ->; rewrite Hname in Hn; by destruct Hn).
      erewrite IH; [| exact H2 |]; rewrite lookup_insert_ne by done; auto.
Qed.

Lemma deleteObsoleteBucket_live (db db' : DB) ns u :
  deleteObsoleteBucket db = (ns, Ok (u, db')) ->
  ∀ n, n ∈ liveBuckets -> db' !! n = db !! n.
Proof.
  unfold deleteObsoleteBucket, tx_DeleteBucket. intros H n Hn.
  destruct (db !! tunnelStatsBucket); simplify_eq; [|reflexivity].
  apply lookup_delete_ne. intros <-. revert Hn. unfold liveBuckets.
  names_differ.
Qed.

Lemma openAttempts_FileDB n retry err w db :
  boltFile w = FileDB db ->
  ∃ w1, openAttempts (S n) retry err w = (None, w1) ∧
        boltFile w1 = FileDB db ∧ datastoreDB w1 = datastoreDB w.
Proof.
  intros Hf. simpl.
  set (w0 := if 0 <? retry then _ else w).
  assert (Hf0 : boltFile w0 = FileDB db ∧ datastoreDB w0 = datastoreDB w)
    by (unfold w0; destruct (0 <? retry); simpl; auto).
  destruct Hf0 as [Hf0 Hh0].
  unfold bolt_Open, SynchronousCheck. rewrite Hf0. simpl. rewrite Hf0.
  exists w0. auto.
Qed.

Lemma OpenDataStore_keeps cfg w r w' :
  OpenDataStore cfg w = (r, w') -> WorldInv w -> WorldInv w'.
Proof.
  unfold OpenDataStore, openAndInitialize. intros H Hw.
  destruct (datastoreDB w); [simplify_eq; exact Hw|].
  destruct Hw as (db & Hdb & Hinv).
  destruct (openAttempts_FileDB 2 0 None w db Hdb) as (w1 & Ho & Hf1 & _).
  rewrite Ho in H. clear Ho.
  assert (Hw1 : WorldInv w1) by (exists db; auto).
  destruct (db_Update _ w1) as [r2 w2] eqn:HU1.
  assert (Hw2 : WorldInv w2).
  { revert HU1 Hw1. apply db_Update_keeps. intros db0 ns a db0' Hc Hinv0.
    eapply DBInv_agree; [|exact Hinv0]. intros n Hn.
    eapply createBuckets_existing; [exact Hc|]. apply Hinv0, Hn. }
  destruct r2 as [[]|e|]; try (simplify_eq; exact Hw2).
  destruct (db_Update deleteObsoleteBucket w2) as [r3 w3] eqn:HU2.
  assert (Hw3 : WorldInv w3).
  { revert HU2 Hw2. apply db_Update_keeps. intros db0 ns a db0' Hc.
    apply DBInv_agree. eapply deleteObsoleteBucket_live; eauto. }
  destruct r3 as [[]|e|]; try (simplify_eq; exact Hw3).
  destruct (resetAllPersistentStatsToUnreported (setHandle true w3))
    as [r4 w4] eqn:HR.
  apply resetAllPersistentStatsToUnreported_keeps in HR;
    [|eapply WorldInv_file; [|exact Hw3]; reflexivity].
  destruct r4; simplify_eq; exact HR.
Qed.

Lemma reset_initialDB :
  tx_for persistentStatTypes resetBucketToUnreported initialDB
  = ([], Ok (tt, initialDB)).
Proof.
  unfold persistentStatTypes, PERSISTENT_STAT_TYPE_REMOTE_SERVER_LIST.
  simpl tx_for. unfold resetBucketToUnreported, tx_bind, bucket_Cursor.
  rewrite initialDB_lookup by name_is_live. reflexivity.
Qed.

Lemma openAttempts_FileAbsent w :
  boltFile w = FileAbsent ->
  openAttempts 3 0 None w = (None, setFile (FileDB ∅) w).
Proof.
  intros Hf. simpl. unfold bolt_Open. rewrite Hf. reflexivity.
Qed.

(** Opening where no file exists leaves the empty database. *)
Lemma OpenDataStore_fresh cfg w w' :
  boltFile w = FileAbsent ->
  OpenDataStore cfg w = (Ok tt, w') ->
  boltFile w' = FileDB initialDB ∧ datastoreDB w' = true.
Proof.
  unfold OpenDataStore, openAndInitialize. intros Hf H.
  destruct (datastoreDB w); [discriminate|].
  rewrite (openAttempts_FileAbsent w Hf) in H.
  destruct (db_Update _ (setFile (FileDB ∅) w)) as [r2 w2] eqn:HU1.
  destruct r2 as [[]|e|]; try discriminate.
  apply db_Update_Ok in HU1 as (db & ns & db' & Hdb & Hc & Hf2 & _).
  simpl in Hdb. injection Hdb as <-. rewrite createBuckets_empty in Hc.
  injection Hc as <- <-.
  destruct (db_Update deleteObsoleteBucket w2) as [r3 w3] eqn:HU2.
  destruct r3 as [[]|e|]; try discriminate.
  apply db_Update_Ok in HU2 as (db & ns' & db' & Hdb & Hc & Hf3 & _).
  rewrite Hf2 in Hdb. injection Hdb as <-.
  rewrite deleteObsoleteBucket_created in Hc. injection Hc as <- <-.
  destruct (resetAllPersistentStatsToUnreported (setHandle true w3))
    as [r4 w4] eqn:HR.
  assert (w4 = w') as -> by (destruct r4; simplify_eq; reflexivity).
  unfold resetAllPersistentStatsToUnreported in HR.
  apply dataStoreUpdate_file in HR
    as [Hh [Hsame|(db & ns2 & a & db' & _ & Hdb & Hrun & Hf4)]].
  - rewrite Hsame, Hh. simpl. auto.
  - simpl in Hdb. rewrite Hf3 in Hdb. injection Hdb as <-.
    rewrite Hh. simpl. split; [|reflexivity].
    rewrite Hf4. f_equal. rewrite reset_initialDB in Hrun. congruence.
Qed.

(** ** Sequences of operations *)

(** The calls a client makes on the datastore. *)
Inductive Op : Type :=
| OpOpenDataStore (config : Config)
| OpCloseDataStore
| OpStoreServerEntry (serverEntryFields : ServerEntryFields)
    (replaceIfExists : bool)
| OpStoreServerEntries (config : Config)
    (serverEntries : list ServerEntryFields) (replaceIfExists : bool)
| OpStreamingStoreServerEntries (config : Config)
    (serverEntries : StreamingServerEntryDecoder) (replaceIfExists : bool)
| OpPromoteServerEntry (config : Config) (ipAddress : string)
| OpNewServerEntryIterator (config : Config)
| OpNewTacticsServerEntryIterator (config : Config)
| OpReset (iterator : ServerEntryIterator)
| OpSetSplitTunnelRoutes (region etag data : string)
| OpStorePersistentStat (statType stat : string)
| OpCountUnreportedPersistentStats
| OpTakeOutUnreportedPersistentStats (maxCount : Z)
| OpPutBackUnreportedPersistentStats (stats : Stats)
| OpClearReportedPersistentStats (stats : Stats).

(** The state after a call, whatever it returns. *)
Definition step (op : Op) (w : World) : World :=
  match op with
  | OpOpenDataStore config => (OpenDataStore config w).2
  | OpCloseDataStore => CloseDataStore w
  | OpStoreServerEntry f r => (StoreServerEntry f r w).2
  | OpStoreServerEntries c fs r => (StoreServerEntries c fs r w).2
  | OpStreamingStoreServerEntries c d r =>
      (StreamingStoreServerEntries c d r w).2
  | OpPromoteServerEntry c ip => (PromoteServerEntry c ip w).2
  | OpNewServerEntryIterator c => (NewServerEntryIterator c w).2
  | OpNewTacticsServerEntryIterator c => (NewTacticsServerEntryIterator c w).2
  | OpReset it => (Reset it w).2
  | OpSetSplitTunnelRoutes region etag data =>
      (SetSplitTunnelRoutes region etag data w).2
  | OpStorePersistentStat t s => (StorePersistentStat t s w).2
  | OpCountUnreportedPersistentStats => (CountUnreportedPersistentStats w).2
  | OpTakeOutUnreportedPersistentStats n =>
      (TakeOutUnreportedPersistentStats n w).2
  | OpPutBackUnreportedPersistentStats s =>
      (PutBackUnreportedPersistentStats s w).2
  | OpClearReportedPersistentStats s => (ClearReportedPersistentStats s w).2
  end.

Definition run (ops : list Op) (w : World) : World :=
  fold_left (fun w op => step op w) ops w.

(** The states of a datastore that was opened where no file existed and
    then used through any sequence of calls. *)
Definition Reachable (w : World) : Prop :=
  ∃ config w_init w0 ops,
    boltFile w_init = FileAbsent ∧
    OpenDataStore config w_init = (Ok tt, w0) ∧
    w = run ops w0.

Lemma step_keeps op w : WorldInv w -> WorldInv (step op w).
Proof.
  intros Hw. destruct op; simpl;
    match goal with
    | |- WorldInv (?c).2 => destruct c as [r w'] eqn:Hc; simpl
    | _ => idtac
    end.
  - eapply OpenDataStore_keeps; eauto.
  - eapply WorldInv_file; [|exact Hw]. reflexivity.
  - eapply StoreServerEntry_keeps; eauto.
  - eapply StoreServerEntries_keeps; eauto.
  - eapply StreamingStoreServerEntries_keeps; eauto.
  - eapply PromoteServerEntry_keeps; eauto.
  - eapply NewServerEntryIterator_keeps; eauto.
  - eapply NewTacticsServerEntryIterator_keeps; eauto.
  - eapply Reset_keeps; eauto.
  - eapply SetSplitTunnelRoutes_keeps; eauto.
  - eapply StorePersistentStat_keeps; eauto.
  - eapply CountUnreportedPersistentStats_keeps; eauto.
  - eapply TakeOutUnreportedPersistentStats_keeps; eauto.
  - eapply PutBackUnreportedPersistentStats_keeps; eauto.
  - eapply ClearReportedPersistentStats_keeps; eauto.
Qed.

Lemma run_keeps ops w : WorldInv w -> WorldInv (run ops w).
Proof.
  revert w. induction ops as [|op ops IH]; intros w Hw; simpl; [exact Hw|].
  apply IH, step_keeps, Hw.
Qed.

Lemma Reachable_WorldInv w : Reachable w -> WorldInv w.
Proof.
  intros (cfg & w_init & w0 & ops & Hf & Hopen & ->).
  apply run_keeps. apply OpenDataStore_fresh in Hopen as [Hf0 _]; [|exact Hf].
  exists initialDB. split; [exact Hf0|apply DBInv_initialDB].
Qed.

(** C1. Whatever calls are made on a datastore opened where no file
    existed (storing and promoting server entries, creating iterators,
    the persistent stat queue, split tunnel routes, closing and opening
    again), the ranked server entry vector that the file holds has at
    most 100 ids and no id twice. *)
Theorem ranked_vector_capped_and_unique config w_init w0 ops :
  boltFile w_init = FileAbsent ->
  OpenDataStore config w_init = (Ok tt, w0) ->
  ∃ db R,
    boltFile (run ops w0) = FileDB db ∧
    getRankedServerEntries db = ([], Ok (R, db)) ∧
    (length R <= 100)%nat ∧
    ∀ i j x y, i ≠ j -> R !! i = Some x -> R !! j = Some y -> x ≠ y.
Proof.
  intros Hf Hopen.
  assert (Hr : Reachable (run ops w0)) by (exists config, w_init, w0, ops; auto).
  apply Reachable_WorldInv in Hr as (db & Hdb & [_ (R & HR & Hlen & Hnd & _) _]).
  exists db, R. repeat split; auto.
  intros i j x y Hij Hi Hj ->. apply Hij. eapply NoDup_lookup; eauto.
Qed.

(** ** StoreServerEntry: which entries are written *)

(** The configuration version of the record stored for an entry, when
    there is a record and it decodes. *)
Definition decodedConfigurationVersion (existingData : option string)
  : option Z :=
  match existingData with
  | Some data =>
      match json_Unmarshal_ServerEntry data with
      | Ok (Some existingServerEntry) =>
          Some (ConfigurationVersion existingServerEntry)
      | _ => None
      end
  | None => None
  end.

(** When the record is written, as C3 words it: no record that decodes,
    or [replaceIfExists], or a stored version below the new one. *)
Definition claimedWrite (existing : option Z) (replaceIfExists : bool)
    (version : Z) : bool :=
  match existing with
  | None => true
  | Some v => replaceIfExists || (v <? version)
  end.

(** When the record is written, by the code: a stored version that is
    not above -1 counts as no record. *)
Definition writesRecord (existing : option Z) (replaceIfExists : bool)
    (version : Z) : bool :=
  match existing with
  | None => true
  | Some v => (v <=? -1) || replaceIfExists || (v <? version)
  end.

Lemma storeServerEntryTx_Ok f replaceIfExists (db db' : DB) (b : Bucket)
    R ns u :
  db !! serverEntriesBucket = Some b ->
  getRankedServerEntries db = ([], Ok (R, db)) ->
  Forall validServerEntryId R ->
  ValidateServerEntryFields f = None ->
  storeServerEntryTx f replaceIfExists db = (ns, Ok (u, db')) ->
  if writesRecord (decodedConfigurationVersion (bolt.Get (GetIPAddress f) b))
       replaceIfExists (GetConfigurationVersion f)
  then
    ∃ data R',
      json_Marshal_ServerEntryFields f = Ok data ∧
      db' !! serverEntriesBucket = Some (bolt.put (GetIPAddress f) data b) ∧
      insertCapped (GetIPAddress f) 1 (removeRanked (GetIPAddress f) R)
        = Some R' ∧
      getRankedServerEntries db' = ([], Ok (R', db')) ∧
      (∀ n, n ≠ serverEntriesBucket -> n ≠ rankedServerEntriesBucket ->
            db' !! n = db !! n) ∧
      ns = [NoticeInfo ("updated server " +:+ GetIPAddress f)]
  else db' = db ∧ ns = [].
Proof.
  intros Hb HR Hv Hvalid H. unfold storeServerEntryTx in H.
  apply tx_bind_Ok in H as (ns1 & existingData & db1 & ns2 & H1 & H & ->).
  apply bucket_Get_Ok in H1 as (b0 & Hb0 & -> & -> & ->).
  rewrite Hb in Hb0. injection Hb0 as <-.
  apply tx_bind_Ok in H as (ns3 & ver & db2 & ns4 & H2 & H & ->).
  apply tx_lift_Ok in H2 as (Hread & -> & ->).
  assert (Hw : writesRecord
                 (decodedConfigurationVersion (bolt.Get (GetIPAddress f) b))
                 replaceIfExists (GetConfigurationVersion f)
               = negb (-1 <? ver) || replaceIfExists
                 || (-1 <? ver) && (ver <? GetConfigurationVersion f)).
  { unfold readExistingConfigurationVersion,
      decodedConfigurationVersion in *.
    destruct (bolt.Get (GetIPAddress f) b) as [data|].
    - destruct (json_Unmarshal_ServerEntry data) as [[e|]| |];
        simplify_eq; simpl; auto.
      destruct (Z.ltb_spec (-1) (ConfigurationVersion e)); simpl.
      + replace (ConfigurationVersion e <=? -1) with false
          by (symmetry; apply Z.leb_gt; lia).
        reflexivity.
      + replace (ConfigurationVersion e <=? -1) with true
          by (symmetry; apply Z.leb_le; lia).
        reflexivity.
    - simplify_eq. simpl. auto. }
  rewrite Hw. clear Hw Hread.
  destruct (negb (-1 <? ver) || replaceIfExists
            || (-1 <? ver) && (ver <? GetConfigurationVersion f)); simpl in H.
  2:{ unfold tx_ret in H. simplify_eq. auto. }
  destruct (json_Marshal_ServerEntryFields f) as [data| |]; try discriminate.
  apply tx_bind_Ok in H as (ns5 & [] & db3 & ns6 & HP & H & ->).
  apply tx_bind_Ok in H as (ns7 & [] & db4 & ns8 & HI & H & ->).
  assert (db4 = db' ∧ ns8 = [NoticeInfo ("updated server " +:+ GetIPAddress f)])
    as [<- ->] by (unfold tx_notice, tx_emit in H; split; congruence).
  clear H.
  assert (Hid : validServerEntryId (GetIPAddress f)) by (exists f; auto).
  pose proof (Frames_Put _ _ _ _ _ _ _ HP) as [HfP _].
  apply bucket_Put_Ok in HP as (b0 & Hb0 & _ & Hdb3 & ->).
  rewrite Hb in Hb0. injection Hb0 as <-.
  assert (HR3 : getRankedServerEntries db3 = ([], Ok (R, db3))).
  { apply (getRanked_frame db); [|exact HR]. apply HfP. names_differ. }
  destruct (insertRanked_Ok _ _ R _ 1 _ _ ltac:(lia) HR3 Hv Hid HI)
    as (R' & Hins & HR4 & _ & [HfI _] & ->).
  exists data, R'. split; [reflexivity|]. split.
  { rewrite HfI by names_differ. rewrite Hdb3. apply lookup_insert_eq. }
  split; [exact Hins|]. split; [exact HR4|]. split.
  - intros n Hn1 Hn2. rewrite HfI, HfP by set_solver. reflexivity.
  - reflexivity.
Qed.

(** Where [insertCapped] puts the id: at [position], or at the last index
    when [position] is beyond it. *)
Lemma insertCapped_lookup id (p : Z) (l R' : list string) :
  (0 <= p)%Z -> insertCapped id p l = Some R' ->
  R' !! (Z.to_nat p `min` (length R' - 1))%nat = Some id.
Proof.
  intros Hp H.
  destruct (Nat.lt_ge_cases (length l) rankedServerEntryCount) as [Hlt|Hge].
  - rewrite insertCapped_below in H by done. injection H as <-.
    rewrite length_app. simpl. rewrite length_take, length_drop.
    replace ((Z.to_nat p `min` length l) `min` length l
             + S (length l - Z.to_nat p `min` length l) - 1)%nat
      with (length l) by lia.
    rewrite lookup_app_r by (rewrite length_take; lia).
    rewrite length_take.
    replace (Z.to_nat p `min` length l
             - (Z.to_nat p `min` length l) `min` length l)%nat
      with 0%nat by lia.
    reflexivity.
  - rewrite insertCapped_full in H by done. injection H as <-.
    unfold rankedServerEntryCount in Hge.
    set (q := (Z.to_nat p `min` (length l - 1))%nat).
    assert (Hlen : length (take q l ++ id :: take (length l - q - 1) (drop q l))
                   = length l).
    { rewrite length_app. simpl. rewrite !length_take, length_drop.
      unfold q. lia. }
    rewrite Hlen. fold q.
    rewrite lookup_app_r by (rewrite length_take; unfold q; lia).
    rewrite length_take.
    replace (q - q `min` length l)%nat with 0%nat by (unfold q; lia).
    reflexivity.
Qed.

Lemma StoreServerEntry_Ok_valid f replaceIfExists w w' :
  StoreServerEntry f replaceIfExists w = (Ok tt, w') ->
  ValidateServerEntryFields f = None.
Proof.
  unfold StoreServerEntry. destruct (ValidateServerEntryFields f); [|done].
  discriminate.
Qed.

(** What a call of [StoreServerEntry] that returns no error has done. *)
Lemma StoreServerEntry_Ok_cases f replaceIfExists w w' db (b : Bucket) :
  WorldInv w ->
  boltFile w = FileDB db ->
  db !! serverEntriesBucket = Some b ->
  StoreServerEntry f replaceIfExists w = (Ok tt, w') ->
  if writesRecord (decodedConfigurationVersion (bolt.Get (GetIPAddress f) b))
       replaceIfExists (GetConfigurationVersion f)
  then
    ∃ data db' R R',
      json_Marshal_ServerEntryFields f = Ok data ∧
      boltFile w' = FileDB db' ∧
      storeServerEntryTx f replaceIfExists db
        = ([NoticeInfo ("updated server " +:+ GetIPAddress f)],
           Ok (tt, db')) ∧
      db' !! serverEntriesBucket = Some (bolt.put (GetIPAddress f) data b) ∧
      getRankedServerEntries db = ([], Ok (R, db)) ∧
      insertCapped (GetIPAddress f) 1 (removeRanked (GetIPAddress f) R)
        = Some R' ∧
      getRankedServerEntries db' = ([], Ok (R', db')) ∧
      R' !! (1 `min` (length R' - 1))%nat = Some (GetIPAddress f) ∧
      notices w'
        = notices w ++ [NoticeInfo ("updated server " +:+ GetIPAddress f)]
  else boltFile w' = boltFile w ∧ notices w' = notices w.
Proof.
  intros Hreach Hdb Hb H.
  pose proof (StoreServerEntry_Ok_valid _ _ _ _ H) as Hvalid.
  unfold StoreServerEntry in H. rewrite Hvalid in H.
  apply dataStoreUpdate_Ok in H
    as (_ & db0 & ns & db' & Hdb0 & Htx & Hf' & _ & Hns).
  rewrite Hdb in Hdb0. injection Hdb0 as <-.
  destruct Hreach as (db0 & Hdb0 & Hinv).
  rewrite Hdb in Hdb0. injection Hdb0 as <-.
  destruct Hinv as [_ (R & HR & _ & _ & Hv) _].
  pose proof (storeServerEntryTx_Ok _ _ _ _ _ R _ _ Hb HR Hv Hvalid Htx) as Hspec.
  destruct (writesRecord _ _ _).
  - destruct Hspec as (data & R' & Hm & Hput & Hins & HR' & _ & ->).
    exists data, db', R, R'. repeat (split; [assumption|]).
    split; [|exact Hns].
    apply (insertCapped_lookup _ 1 _ _ ltac:(lia) Hins).
  - destruct Hspec as [-> ->]. rewrite app_nil_r in Hns.
    split; [congruence|exact Hns].
Qed.


(** The write condition of [StoreServerEntry] as the code computes it. A
    call that returns no error has written the record at the entry's IP
    address exactly when [writesRecord] holds: no record that decodes is
    stored there, or the stored record's configuration version is not
    above -1, or [replaceIfExists] is set, or the stored version is
    strictly below the new one. When it writes, the same transaction
    inserts the IP address into the ranked vector at position 1 (at the
    last index, when the vector is shorter) and the notice of the update
    is emitted; when it does not write, the file and the notices are as
    they were. The second case of [writesRecord] is where the code leaves
    the doc comment of the function, which names only the last two. *)
Theorem StoreServerEntry_writes_when f replaceIfExists w w' db (b : Bucket) :
  Reachable w ->
  boltFile w = FileDB db ->
  db !! serverEntriesBucket = Some b ->
  StoreServerEntry f replaceIfExists w = (Ok tt, w') ->
  if writesRecord (decodedConfigurationVersion (bolt.Get (GetIPAddress f) b))
       replaceIfExists (GetConfigurationVersion f)
  then
    ∃ data db' R R',
      json_Marshal_ServerEntryFields f = Ok data ∧
      boltFile w' = FileDB db' ∧
      storeServerEntryTx f replaceIfExists db
        = ([NoticeInfo ("updated server " +:+ GetIPAddress f)],
           Ok (tt, db')) ∧
      db' !! serverEntriesBucket = Some (bolt.put (GetIPAddress f) data b) ∧
      getRankedServerEntries db = ([], Ok (R, db)) ∧
      insertCapped (GetIPAddress f) 1 (removeRanked (GetIPAddress f) R)
        = Some R' ∧
      getRankedServerEntries db' = ([], Ok (R', db')) ∧
      R' !! (1 `min` (length R' - 1))%nat = Some (GetIPAddress f) ∧
      notices w'
        = notices w ++ [NoticeInfo ("updated server " +:+ GetIPAddress f)]
  else boltFile w' = boltFile w ∧ notices w' = notices w.
Proof.
  intros Hreach. apply StoreServerEntry_Ok_cases, Reachable_WorldInv, Hreach.
Qed.

(** C3 does not hold of the code. The doc comment of [StoreServerEntry]
    says that an existing entry is replaced only if [replaceIfExists] is
    set or the new configuration version is strictly higher, and C3 says
    the same. The code marks "no record" by the version -1
    ([exists := existingConfigurationVersion > -1]), so a stored record
    that decodes with a configuration version of -1 or below is taken for
    absent: a call with [replaceIfExists] unset and a new version that is
    not higher, which C3 says leaves the record alone
    ([claimedWrite] is [false]), returns no error and has replaced the
    stored record by the new entry's data, with the notice of an update. *)
Theorem StoreServerEntry_overwrites_negative_version
    f w w' db (b : Bucket) existingData existingServerEntry :
  Reachable w ->
  boltFile w = FileDB db ->
  db !! serverEntriesBucket = Some b ->
  bolt.Get (GetIPAddress f) b = Some existingData ->
  json_Unmarshal_ServerEntry existingData = Ok (Some existingServerEntry) ->
  ConfigurationVersion existingServerEntry <= -1 ->
  GetConfigurationVersion f <= ConfigurationVersion existingServerEntry ->
  StoreServerEntry f false w = (Ok tt, w') ->
  claimedWrite
    (decodedConfigurationVersion (bolt.Get (GetIPAddress f) b))
    false (GetConfigurationVersion f) = false ∧
  ∃ data db' (b' : Bucket),
    json_Marshal_ServerEntryFields f = Ok data ∧
    boltFile w' = FileDB db' ∧
    db' !! serverEntriesBucket = Some b' ∧
    bolt.Get (GetIPAddress f) b' = Some data ∧
    notices w'
      = notices w ++ [NoticeInfo ("updated server " +:+ GetIPAddress f)].
Proof.
  intros Hreach Hdb Hb Hget Hdec Hneg Hle Hstore.
  pose proof (StoreServerEntry_Ok_cases _ _ _ _ _ _
                (Reachable_WorldInv _ Hreach) Hdb Hb Hstore) as Hcases.
  rewrite Hget in Hcases |- *. unfold decodedConfigurationVersion in *.
  rewrite Hdec in Hcases |- *. simpl in Hcases |- *.
  split.
  - apply Z.ltb_ge. exact Hle.
  - assert (Hw : (ConfigurationVersion existingServerEntry <=? -1) = true)
      by (apply Z.leb_le; exact Hneg).
    rewrite Hw in Hcases. simpl in Hcases.
    destruct Hcases as (data & db' & R & R' & Hm & Hf & _ & Hb' & _ & _ & _
                        & _ & Hns).
    exists data, db', (bolt.put (GetIPAddress f) data b).
    repeat (split; [assumption|]).
    split; [apply Get_put_eq|exact Hns].
Qed.

(** ** PromoteServerEntry *)

Lemma promoteServerEntryTx_Ok config ip (db db' : DB) (b : Bucket) R v ns u :
  db !! serverEntriesBucket = Some b ->
  bolt.Get ip b = Some v ->
  getRankedServerEntries db = ([], Ok (R, db)) ->
  Forall validServerEntryId R -> validServerEntryId ip ->
  promoteServerEntryTx config ip db = (ns, Ok (u, db')) ->
  ∃ R' (kv : Bucket),
    insertCapped ip 0 (removeRanked ip R) = Some R' ∧
    getRankedServerEntries db' = ([], Ok (R', db')) ∧
    db' !! keyValueBucket = Some kv ∧
    bolt.Get DATA_STORE_LAST_SERVER_ENTRY_FILTER_KEY kv
      = Some (EgressRegion config) ∧
    ns = [].
Proof.
  intros Hb Hget HR Hv Hid H. unfold promoteServerEntryTx in H.
  apply tx_bind_Ok in H as (ns1 & data & db1 & ns2 & H1 & H & ->).
  apply bucket_Get_Ok in H1 as (b0 & Hb0 & -> & -> & ->).
  rewrite Hb in Hb0. injection Hb0 as <-. rewrite Hget in H.
  apply tx_bind_Ok in H as (ns3 & [] & db2 & ns4 & HI & H & ->).
  apply tx_bind_Ok in H as (ns5 & filter & db3 & ns6 & HL & HP & ->).
  apply tx_lift_Ok in HL as (Hfilter & -> & ->).
  unfold makeServerEntryFilterValue in Hfilter. injection Hfilter as <-.
  destruct (insertRanked_Ok _ _ R _ 0 _ _ ltac:(lia) HR Hv Hid HI)
    as (R' & Hins & HR2 & _ & _ & ->).
  pose proof (Frames_Put _ _ _ _ _ _ _ HP) as [HfP _].
  apply bucket_Put_Ok in HP as (kv & Hkv & _ & -> & ->).
  exists R', (bolt.put DATA_STORE_LAST_SERVER_ENTRY_FILTER_KEY
                (EgressRegion config) kv).
  split; [exact Hins|]. split.
  { apply (getRanked_frame db2); [|exact HR2]. apply HfP. names_differ. }
  split; [apply lookup_insert_eq|]. split; [apply Get_put_eq|reflexivity].
Qed.

(** C2. On an open, reachable datastore: when a record is stored for
    [ipAddress], a call of [PromoteServerEntry] that returns no error has
    run one transaction after which the ranked vector has [ipAddress] at
    its head and the key of the last server entry filter holds the filter
    value of the config, its egress region. When no record is stored for
    [ipAddress], the call emits an alert and the file is as it was. *)
Theorem PromoteServerEntry_spec config ipAddress w r w' db (b : Bucket) :
  Reachable w ->
  datastoreDB w = true ->
  boltFile w = FileDB db ->
  db !! serverEntriesBucket = Some b ->
  PromoteServerEntry config ipAddress w = (r, w') ->
  match bolt.Get ipAddress b with
  | Some _ =>
      r = Ok tt ->
      ∃ db' R' (kv : Bucket) currentFilter,
        boltFile w' = FileDB db' ∧
        promoteServerEntryTx config ipAddress db = ([], Ok (tt, db')) ∧
        getRankedServerEntries db' = ([], Ok (R', db')) ∧
        R' !! 0%nat = Some ipAddress ∧
        makeServerEntryFilterValue config = Ok currentFilter ∧
        currentFilter = EgressRegion config ∧
        db' !! keyValueBucket = Some kv ∧
        bolt.Get DATA_STORE_LAST_SERVER_ENTRY_FILTER_KEY kv
          = Some currentFilter
  | None =>
      boltFile w' = boltFile w ∧
      notices w'
        = notices w
          ++ [NoticeAlert
                ("PromoteServerEntry: ignoring unknown server entry: "
                   +:+ ipAddress)]
  end.
Proof.
  intros Hreach Hopen Hdb Hb H.
  apply Reachable_WorldInv in Hreach as (db0 & Hdb0 & Hinv).
  rewrite Hdb in Hdb0. injection Hdb0 as <-.
  destruct Hinv as [_ (R & HR & _ & _ & Hv) He].
  unfold PromoteServerEntry in H.
  destruct (bolt.Get ipAddress b) as [v|] eqn:Hget.
  - intros ->.
    apply dataStoreUpdate_Ok in H
      as (_ & db0 & ns & db' & Hdb0 & Htx & Hf' & _ & Hns).
    rewrite Hdb in Hdb0. injection Hdb0 as <-.
    assert (Hid : validServerEntryId ipAddress).
    { eapply He; [exact Hb|]. eapply Get_Some_elem_of_keys; eauto. }
    destruct (promoteServerEntryTx_Ok _ _ _ _ _ R _ _ _ Hb Hget HR Hv Hid Htx)
      as (R' & kv & Hins & HR' & Hkv & Hfilter & ->).
    exists db', R', kv, (EgressRegion config).
    repeat (split; [assumption || reflexivity|]).
    split; [|auto].
    apply (insertCapped_lookup _ 0 _ _ ltac:(lia) Hins).
  - assert (Htx : promoteServerEntryTx config ipAddress db
                  = ([NoticeAlert
                        ("PromoteServerEntry: ignoring unknown server entry: "
                           +:+ ipAddress)], Ok (tt, db))).
    { unfold promoteServerEntryTx, tx_bind, bucket_Get.
      rewrite Hb, Hget. reflexivity. }
    unfold dataStoreUpdate, db_Update in H.
    rewrite Hopen, Hdb, Htx in H.
    destruct (commitFaults w) as [|[] fs]; injection H as <- <-; simpl;
      rewrite ?Hdb; auto.
Qed.

(** ** Three entries stored in an empty datastore *)

Lemma getRanked_initialDB :
  getRankedServerEntries initialDB = ([], Ok ([], initialDB)).
Proof.
  unfold getRankedServerEntries, tx_bind, bucket_Get.
  rewrite initialDB_lookup by name_is_live. reflexivity.
Qed.

Lemma getRanked_inj (db : DB) R1 R2 :
  getRankedServerEntries db = ([], Ok (R1, db)) ->
  getRankedServerEntries db = ([], Ok (R2, db)) -> R1 = R2.
Proof. intros H1 H2. rewrite H1 in H2. congruence. Qed.

Lemma insertCapped_1_nil id : insertCapped id 1 [] = Some [id].
Proof. reflexivity. Qed.

Lemma insertCapped_1_one id a : insertCapped id 1 [a] = Some [a; id].
Proof. reflexivity. Qed.

Lemma insertCapped_1_two id a b : insertCapped id 1 [a; b] = Some [a; id; b].
Proof. reflexivity. Qed.

(** Storing an entry whose IP address has no record in the bucket. *)
Lemma StoreServerEntry_new f w w' db (b : Bucket) R :
  WorldInv w ->
  boltFile w = FileDB db ->
  db !! serverEntriesBucket = Some b ->
  bolt.Get (GetIPAddress f) b = None ->
  getRankedServerEntries db = ([], Ok (R, db)) ->
  StoreServerEntry f false w = (Ok tt, w') ->
  WorldInv w' ∧
  ∃ data db' R',
    boltFile w' = FileDB db' ∧
    db' !! serverEntriesBucket = Some (bolt.put (GetIPAddress f) data b) ∧
    insertCapped (GetIPAddress f) 1 (removeRanked (GetIPAddress f) R)
      = Some R' ∧
    getRankedServerEntries db' = ([], Ok (R', db')).
Proof.
  intros Hw Hdb Hb Hget HR H.
  split; [eapply StoreServerEntry_keeps; eauto|].
  pose proof (StoreServerEntry_Ok_cases _ _ _ _ _ _ Hw Hdb Hb H) as Hc.
  rewrite Hget in Hc. simpl in Hc.
  destruct Hc as (data & db' & R0 & R' & _ & Hf' & _ & Hput & HR0 & Hins & HR' & _).
  rewrite (getRanked_inj _ _ _ HR HR0).
  exists data, db', R'. auto.
Qed.

(** C4, amended. From an empty datastore, storing [A], then [B], then
    [C] (three IP addresses, none with [replaceIfExists]) leaves the
    ranked vector [[A; C; B]]: the first entry stored is the head and
    stays there, and each later entry is inserted just behind it. *)
Theorem three_stored_entries_ranked config w_init w0 w1 w2 w3 A B C :
  boltFile w_init = FileAbsent ->
  OpenDataStore config w_init = (Ok tt, w0) ->
  StoreServerEntry A false w0 = (Ok tt, w1) ->
  StoreServerEntry B false w1 = (Ok tt, w2) ->
  StoreServerEntry C false w2 = (Ok tt, w3) ->
  GetIPAddress A ≠ GetIPAddress B ->
  GetIPAddress A ≠ GetIPAddress C ->
  GetIPAddress B ≠ GetIPAddress C ->
  ∃ db,
    boltFile w3 = FileDB db ∧
    getRankedServerEntries db
      = ([], Ok ([GetIPAddress A; GetIPAddress C; GetIPAddress B], db)).
Proof.
  intros Hf Hopen HA HB HC Hab Hac Hbc.
  apply OpenDataStore_fresh in Hopen as [Hf0 _]; [|exact Hf].
  assert (Hw0 : WorldInv w0).
  { exists initialDB. split; [exact Hf0|apply DBInv_initialDB]. }
  destruct (StoreServerEntry_new A w0 w1 initialDB [] [] Hw0 Hf0
              (initialDB_lookup _ ltac:(name_is_live)) eq_refl
              getRanked_initialDB HA)
    as (Hw1 & dataA & db1 & R1 & Hf1 & Hb1 & Hins1 & HR1).
  assert (R1 = [GetIPAddress A]) as ->.
  { simpl in Hins1. rewrite insertCapped_1_nil in Hins1. congruence. }
  assert (Hget1 : bolt.Get (GetIPAddress B)
                    (bolt.put (GetIPAddress A) dataA []) = None).
  { rewrite Get_put_ne by done. reflexivity. }
  destruct (StoreServerEntry_new B w1 w2 db1 _ _ Hw1 Hf1 Hb1 Hget1 HR1 HB)
    as (Hw2 & dataB & db2 & R2 & Hf2 & Hb2 & Hins2 & HR2).
  assert (R2 = [GetIPAddress A; GetIPAddress B]) as ->.
  { simpl in Hins2. rewrite (string_eqb_ne _ _ Hab) in Hins2.
    rewrite insertCapped_1_one in Hins2. congruence. }
  assert (Hget2 : bolt.Get (GetIPAddress C)
                    (bolt.put (GetIPAddress B) dataB
                       (bolt.put (GetIPAddress A) dataA [])) = None).
  { rewrite !Get_put_ne by done. reflexivity. }
  destruct (StoreServerEntry_new C w2 w3 db2 _ _ Hw2 Hf2 Hb2 Hget2 HR2 HC)
    as (Hw3 & dataC & db3 & R3 & Hf3 & Hb3 & Hins3 & HR3).
  assert (R3 = [GetIPAddress A; GetIPAddress C; GetIPAddress B]) as ->.
  { simpl in Hins3.
    rewrite (string_eqb_ne _ _ Hac), (string_eqb_ne _ _ Hbc) in Hins3.
    rewrite insertCapped_1_two in Hins3. congruence. }
  exists db3. auto.
Qed.

End Laws.

(** ** Bulk import *)





(** ** The persistent stat queue: put back, then take out *)

(** The records in the buckets of the registered stat types. *)
Definition countStoredStats (db : DB) : nat :=
  sum_list ((fun statType => length (default [] (db !! statType)))
              <$> persistentStatTypes).

Lemma takeOutLoop_taken maxCount (items : Bucket) count taken ns count' taken' :
  takeOutLoop maxCount items count taken = (ns, (count', taken')) ->
  ∀ key, key ∈ taken' -> key ∈ taken ∨ json_Valid key = true.
Proof.
  revert count taken ns. induction items as [|[k v] items IH];
    intros count taken ns H key Hkey; simpl in H.
  - simplify_eq. auto.
  - destruct (maxCount <=? count); [simplify_eq; auto|].
    destruct (json_Valid k) eqn:Hk; simpl in H.
    + destruct (bytes_Compare v persistentStatStateUnreported =? 0).
      * destruct (IH _ _ _ H key Hkey) as [Hin|Hv]; [|auto].
        apply elem_of_app in Hin as [Hin|Hin]; [auto|].
        apply list_elem_of_singleton in Hin. subst key. auto.
      * eauto.
    + destruct (takeOutLoop maxCount items count taken) as [ns0 r] eqn:Hl.
      simplify_eq. eauto.
Qed.

Lemma bytes_Compare_refl s : bytes_Compare s s = 0.
Proof. unfold bytes_Compare. rewrite string_compare_refl. reflexivity. Qed.

(** With room for every record, the loop takes out every unreported
    record whose key is JSON, and keeps what was taken before. *)
Lemma takeOutLoop_complete maxCount (items : Bucket) count taken ns count' taken' :
  count + Z.of_nat (length items) <= maxCount ->
  takeOutLoop maxCount items count taken = (ns, (count', taken')) ->
  (∀ key, key ∈ taken -> key ∈ taken') ∧
  (∀ key, (key, persistentStatStateUnreported) ∈ items ->
          json_Valid key = true -> key ∈ taken').
Proof.
  revert count taken ns. induction items as [|[k v] items IH];
    intros count taken ns Hroom H; simpl in H.
  - simplify_eq. split; [auto|]. intros key Hin. apply elem_of_nil in Hin. done.
  - simpl length in Hroom.
    replace (maxCount <=? count) with false in H
      by (symmetry; apply Z.leb_gt; lia).
    destruct (json_Valid k) eqn:Hk; simpl in H.
    + destruct (bytes_Compare v persistentStatStateUnreported =? 0) eqn:Hc.
      * apply IH in H as [H1 H2]; [|lia]. split.
        -- intros key Hin. apply H1. set_solver.
        -- intros key Hin Hv. apply elem_of_cons in Hin as [Heq|Hin].
           ++ injection Heq as -> <-. apply H1. set_solver.
           ++ auto.
      * apply IH in H as [H1 H2]; [|lia]. split; [exact H1|].
        intros key Hin Hv. apply elem_of_cons in Hin as [Heq|Hin]; [|auto].
        injection Heq as -> <-. rewrite bytes_Compare_refl in Hc. discriminate.
    + destruct (takeOutLoop maxCount items count taken) as [ns0 r] eqn:Hl.
      injection H as _ ->. apply IH in Hl as [H1 H2]; [|lia].
      split; [exact H1|].
      intros key Hin Hv. apply elem_of_cons in Hin as [Heq|Hin]; [|auto].
      injection Heq as -> <-. congruence.
Qed.

Lemma takeOutTx_registered maxCount (db db' : DB) ns stats :
  takeOutTx maxCount persistentStatTypes 0 ∅ db = (ns, Ok (stats, db')) ->
  ∃ (items : Bucket) ns0 count taken,
    db !! remoteServerListStatsBucket = Some items ∧
    takeOutLoop maxCount items 0 [] = (ns0, (count, taken)) ∧
    statsOf stats remoteServerListStatsBucket = taken ∧
    ∀ statType, statType ≠ remoteServerListStatsBucket ->
                statsOf stats statType = [].
Proof.
  unfold persistentStatTypes, PERSISTENT_STAT_TYPE_REMOTE_SERVER_LIST.
  simpl takeOutTx. intros H.
  apply tx_bind_Ok in H as (ns1 & items & db1 & ns2 & Hc & H & ->).
  apply bucket_Cursor_Ok in Hc as (Hitems & -> & ->).
  replace (statsOf ∅ remoteServerListStatsBucket) with (@nil string) in H
    by (unfold statsOf; rewrite lookup_empty; reflexivity).
  destruct (takeOutLoop maxCount items 0 []) as [ns0 [count taken]] eqn:Hloop.
  apply tx_bind_Ok in H as (ns3 & [] & db2 & ns4 & _ & H & ->).
  apply tx_bind_Ok in H as (ns5 & [] & db3 & ns6 & _ & H & ->).
  unfold tx_ret in H. injection H as _ <- _.
  exists items, ns0, count, taken. split; [exact Hitems|].
  split; [exact Hloop|]. clear Hloop. unfold statsOf.
  destruct taken as [|k taken].
  - split; [rewrite lookup_empty; reflexivity|].
    intros t _. rewrite lookup_empty. reflexivity.
  - split; [rewrite lookup_insert_eq; reflexivity|].
    intros t Ht. rewrite lookup_insert_ne by done.
    rewrite lookup_empty. reflexivity.
Qed.

(** A loop of [Put]s of one value keeps every key that holds the value. *)
Lemma putAll_keeps statType value keys (db db' : DB) ns u key (b : Bucket) :
  tx_for keys (fun k => bucket_Put statType k value) db = (ns, Ok (u, db')) ->
  db !! statType = Some b -> bolt.Get key b = Some value ->
  ∃ b' : Bucket, db' !! statType = Some b' ∧ bolt.Get key b' = Some value.
Proof.
  revert db ns b. induction keys as [|k keys IH]; intros db ns b H Hb Hget.
  - apply tx_for_nil_Ok in H as [-> _]. eauto.
  - apply tx_for_cons_Ok in H as (ns1 & db1 & ns2 & HP & H & _).
    apply bucket_Put_Ok in HP as (b0 & Hb0 & _ & -> & _).
    rewrite Hb in Hb0. injection Hb0 as <-.
    eapply IH; [exact H|apply lookup_insert_eq|].
    destruct (decide (k = key)) as [->|Hne].
    + apply Get_put_eq.
    + rewrite Get_put_ne by done. exact Hget.
Qed.

Lemma putAll_puts statType value keys (db db' : DB) ns u key :
  tx_for keys (fun k => bucket_Put statType k value) db = (ns, Ok (u, db')) ->
  key ∈ keys ->
  ∃ b' : Bucket, db' !! statType = Some b' ∧ bolt.Get key b' = Some value.
Proof.
  revert db ns. induction keys as [|k keys IH]; intros db ns H Hin.
  - apply elem_of_nil in Hin. done.
  - apply tx_for_cons_Ok in H as (ns1 & db1 & ns2 & HP & H & _).
    apply elem_of_cons in Hin as [->|Hin]; [|eauto].
    apply bucket_Put_Ok in HP as (b0 & Hb0 & _ & -> & _).
    eapply putAll_keeps; [exact H|apply lookup_insert_eq|apply Get_put_eq].
Qed.

(** C8. Let [T] be stats that [TakeOutUnreportedPersistentStats] has
    returned. After [PutBackUnreportedPersistentStats T] has returned no
    error, a call of [TakeOutUnreportedPersistentStats] with [maxCount] at
    least the number of stored records that returns no error returns
    every stat of [T], under its stat type. *)
Theorem put_back_then_take_out n w0 T w1 w w2 db2 maxCount T' w3 :
  TakeOutUnreportedPersistentStats n w0 = (Ok T, w1) ->
  PutBackUnreportedPersistentStats T w = (Ok tt, w2) ->
  boltFile w2 = FileDB db2 ->
  Z.of_nat (countStoredStats db2) <= maxCount ->
  TakeOutUnreportedPersistentStats maxCount w2 = (Ok T', w3) ->
  ∀ statType key, key ∈ statsOf T statType -> key ∈ statsOf T' statType.
Proof.
  intros Htake Hback Hdb2 Hroom Htake' statType key Hkey.
  (* the stats of [T] are unreported JSON keys of the registered type *)
  apply dataStoreUpdate_Ok in Htake as (_ & db0 & ns0 & db1 & _ & Htx0 & _).
  apply takeOutTx_registered in Htx0
    as (items0 & ns0' & c0 & taken0 & _ & Hloop0 & HT & HTother).
  destruct (decide (statType = remoteServerListStatsBucket)) as [->|Hne];
    [|rewrite HTother in Hkey by done; apply elem_of_nil in Hkey; done].
  assert (Hvalid : json_Valid key = true).
  { rewrite HT in Hkey.
    destruct (takeOutLoop_taken _ _ _ _ _ _ _ Hloop0 key Hkey) as [Hin|Hv];
      [apply elem_of_nil in Hin; done|exact Hv]. }
  (* after the put back they are unreported *)
  apply dataStoreUpdate_Ok in Hback as (_ & db & ns & db2' & _ & Htx & Hf2 & _).
  rewrite Hdb2 in Hf2. injection Hf2 as <-.
  unfold persistentStatTypes, PERSISTENT_STAT_TYPE_REMOTE_SERVER_LIST in Htx.
  apply tx_for_cons_Ok in Htx as (ns1 & db1' & ns2 & Hputs & Hrest & _).
  apply tx_for_nil_Ok in Hrest as [-> _].
  destruct (putAll_puts _ _ _ _ _ _ _ key Hputs Hkey) as (b2 & Hb2 & Hget).
  (* and the take out has room for every record *)
  apply dataStoreUpdate_Ok in Htake' as (_ & db2' & ns3 & db3 & Hf2 & Htx' & _).
  rewrite Hdb2 in Hf2. injection Hf2 as <-.
  apply takeOutTx_registered in Htx'
    as (items & ns' & c & taken & Hitems & Hloop & <- & _).
  rewrite Hb2 in Hitems. injection Hitems as <-.
  eapply takeOutLoop_complete in Hloop as [_ Hall].
  - apply Hall; [|exact Hvalid]. apply Get_elem_of, Hget.
  - unfold countStoredStats, persistentStatTypes,
      PERSISTENT_STAT_TYPE_REMOTE_SERVER_LIST in Hroom.
    simpl in Hroom. rewrite Hb2 in Hroom. simpl in Hroom. lia.
Qed.

(** ** OpenDataStore and the reset of the persistent stats *)

(** C7, amended. When the reset of the persistent stats after the
    datastore is opened returns an error, [OpenDataStore] returns no
    error all the same: the error is discarded, the handle stays set, and
    the file is as the initialization left it, so the records keep the
    state they had. *)
Theorem OpenDataStore_discards_reset_error config w w4 err w5 :
  openAndInitialize config w = (Ok tt, w4) ->
  resetAllPersistentStatsToUnreported w4 = (Err err, w5) ->
  OpenDataStore config w = (Ok tt, w5) ∧
  datastoreDB w5 = true ∧
  boltFile w5 = boltFile w4.
Proof.
  intros Hinit Hreset. unfold OpenDataStore. rewrite Hinit, Hreset.
  split; [reflexivity|].
  unfold resetAllPersistentStatsToUnreported in Hreset.
  apply dataStoreUpdate_Err in Hreset as [Hf Hh].
  split; [|exact Hf]. rewrite Hh.
  unfold openAndInitialize in Hinit.
  repeat match type of Hinit with
         | context [if ?c then _ else _] => destruct c
         | context [match ?x with _ => _ end] => destruct x
         end; try discriminate.
  injection Hinit as <-. reflexivity.
Qed.

End DataStore.

(** * Runs on concrete inputs *)

(** ** A small implementation of the collaborators

    The runs below need server entries, an encoder and a decoder. Here an
    entry has an IP address, a region and a configuration version; the
    validator accepts the entries whose IP address is made of the
    characters of IP address literals; JSON is written without white
    space and read back in that form, strings without escapes. *)
Module Sample.

Definition dquote : ascii := "034"%char.
Definition q : string := String dquote EmptyString.

Record Fields : Type := mkFields {
  ipAddress : string;
  region : string;
  configurationVersion : Z;
}.

Definition isAddressChar (c : ascii) : bool :=
  existsb (Ascii.eqb c) (list_ascii_of_string "0123456789abcdefABCDEF.:").

Definition isAddress (s : string) : bool :=
  negb (String.eqb s EmptyString)
  && forallb isAddressChar (list_ascii_of_string s).

Definition validate (f : Fields) : option error :=
  if isAddress (ipAddress f) then None
  else Some (ErrExternal "server entry has invalid ipAddress").

Definition printZ (z : Z) : string := NilZero.string_of_int (Z.to_int z).

Definition readZ (s : string) : option Z :=
  match NilZero.int_of_string s with
  | Some d => Some (Z.of_int d)
  | None => None
  end.

Fixpoint stripPrefix (p s : string) : option string :=
  match p with
  | EmptyString => Some s
  | String c p' =>
      match s with
      | String d s' => if Ascii.eqb c d then stripPrefix p' s' else None
      | EmptyString => None
      end
  end.

(** The text before the first [c], and the text after it. *)
Fixpoint splitAt (c : ascii) (s : string) : option (string * string) :=
  match s with
  | EmptyString => None
  | String d s' =>
      if Ascii.eqb c d then Some (EmptyString, s')
      else
        match splitAt c s' with
        | Some (before, after) => Some (String d before, after)
        | None => None
        end
  end.

Definition key (name : string) : string := q +:+ name +:+ q +:+ ":".

Definition marshalFields (f : Fields) : Res string :=
  Ok ("{" +:+ key "ipAddress" +:+ q +:+ ipAddress f +:+ q
      +:+ "," +:+ key "region" +:+ q +:+ region f +:+ q
      +:+ "," +:+ key "configurationVersion"
      +:+ printZ (configurationVersion f) +:+ "}").

Definition unmarshalEntry (data : string) : Res (option ServerEntry) :=
  if String.eqb data "null" then Ok None
  else
    match stripPrefix ("{" +:+ key "ipAddress" +:+ q) data with
    | None => Err ErrJSON
    | Some r1 =>
        match splitAt dquote r1 with
        | None => Err ErrJSON
        | Some (ip, r2) =>
            match stripPrefix ("," +:+ key "region" +:+ q) r2 with
            | None => Err ErrJSON
            | Some r3 =>
                match splitAt dquote r3 with
                | None => Err ErrJSON
                | Some (reg, r4) =>
                    match stripPrefix
                            ("," +:+ key "configurationVersion") r4 with
                    | None => Err ErrJSON
                    | Some r5 =>
                        match splitAt "}"%char r5 with
                        | Some (digits, EmptyString) =>
                            match readZ digits with
                            | Some v =>
                                Ok (Some (mkServerEntry ip reg v
                                            EmptyString []))
                            | None => Err ErrJSON
                            end
                        | _ => Err ErrJSON
                        end
                    end
                end
            end
        end
    end.

(** The elements of a JSON array of strings, from the first element to
    the closing bracket. *)
Fixpoint items (ids : list string) : string :=
  match ids with
  | [] => "]"
  | id :: rest =>
      q +:+ id +:+ q
      +:+ match rest with
          | [] => "]"
          | _ :: _ => "," +:+ items rest
          end
  end.

Definition marshalStrings (ids : list string) : Res string :=
  Ok ("[" +:+ items ids).

Inductive ScanState : Type :=
| AtItem       (* an opening quote is due *)
| InString     (* inside a string *)
| AfterString. (* a comma or the closing bracket is due *)

(** In [InString], the head of the result is the rest of the string that
    is being read. *)
Fixpoint scan (st : ScanState) (s : string) : option (list string) :=
  match s with
  | EmptyString => None
  | String c rest =>
      match st with
      | AtItem => if Ascii.eqb c dquote then scan InString rest else None
      | InString =>
          if Ascii.eqb c dquote
          then
            match scan AfterString rest with
            | Some l => Some (EmptyString :: l)
            | None => None
            end
          else
            match scan InString rest with
            | Some (x :: l) => Some (String c x :: l)
            | _ => None
            end
      | AfterString =>
          if Ascii.eqb c ","%char then scan AtItem rest
          else if Ascii.eqb c "]"%char
          then match rest with EmptyString => Some [] | _ => None end
          else None
      end
  end.

Definition unmarshalStrings (data : string) : Res (list string) :=
  if String.eqb data "null" then Ok []
  else if String.eqb data "[]" then Ok []
  else
    match data with
    | String "["%char rest =>
        match scan AtItem rest with
        | Some l => Ok l
        | None => Err ErrJSON
        end
    | _ => Err ErrJSON
    end.

(** Whether a text is a JSON object whose members are strings. *)
Inductive ObjState : Type :=
| ObjStart | ObjOpen | ObjKey | ObjColon | ObjValueQuote | ObjValue
| ObjAfter | ObjMember | ObjDone.

Fixpoint scanObject (st : ObjState) (s : string) : bool :=
  match s with
  | EmptyString => match st with ObjDone => true | _ => false end
  | String c rest =>
      match st with
      | ObjStart => Ascii.eqb c "{"%char && scanObject ObjOpen rest
      | ObjOpen =>
          if Ascii.eqb c "}"%char then scanObject ObjDone rest
          else Ascii.eqb c dquote && scanObject ObjKey rest
      | ObjKey =>
          if Ascii.eqb c dquote then scanObject ObjColon rest
          else scanObject ObjKey rest
      | ObjColon => Ascii.eqb c ":"%char && scanObject ObjValueQuote rest
      | ObjValueQuote => Ascii.eqb c dquote && scanObject ObjValue rest
      | ObjValue =>
          if Ascii.eqb c dquote then scanObject ObjAfter rest
          else scanObject ObjValue rest
      | ObjAfter =>
          if Ascii.eqb c "}"%char then scanObject ObjDone rest
          else Ascii.eqb c ","%char && scanObject ObjMember rest
      | ObjMember => Ascii.eqb c dquote && scanObject ObjKey rest
      | ObjDone => false
      end
  end.

Definition valid (s : string) : bool := scanObject ObjStart s.

Definition decodeServerEntry (encoded : string) : Res ServerEntry :=
  match unmarshalEntry encoded with
  | Ok (Some serverEntry) => Ok serverEntry
  | _ => Err (ErrExternal "invalid server entry")
  end.

#[export] Instance external : External := {|
  ServerEntryFields := Fields;
  GetIPAddress := ipAddress;
  GetConfigurationVersion := configurationVersion;
  ValidateServerEntryFields := validate;
  json_Marshal_ServerEntryFields := marshalFields;
  json_Unmarshal_ServerEntry := unmarshalEntry;
  json_Marshal_strings := marshalStrings;
  json_Unmarshal_strings := unmarshalStrings;
  json_Valid := valid;
  DecodeServerEntry := decodeServerEntry;
  GetSupportedTacticsProtocols := fun _ => [];
  GetSupportedProtocols := fun _ _ _ _ => [];
|}.

(** *** The sample collaborators keep the law of [encoding/json] *)

Lemma isAddressChar_not_quote c :
  isAddressChar c = true -> Ascii.eqb c dquote = false.
Proof.
  intros H. destruct (Ascii.eqb c dquote) eqn:He; [|reflexivity].
  apply Ascii.eqb_eq in He. subst c. vm_compute in H. discriminate.
Qed.

Definition noQuote (s : string) : Prop :=
  Forall (fun c => Ascii.eqb c dquote = false) (list_ascii_of_string s).

Lemma valid_id_noQuote ip : validServerEntryId ip -> noQuote ip.
Proof.
  intros (f & Hvalid & <-). simpl in Hvalid. unfold validate in Hvalid.
  destruct (isAddress (ipAddress f)) eqn:Ha; [|discriminate].
  unfold isAddress in Ha. apply andb_true_iff in Ha as [_ Ha].
  rewrite forallb_forall in Ha. apply Forall_forall. intros c Hc.
  apply isAddressChar_not_quote, Ha, list_elem_of_In, Hc.
Qed.

Lemma scan_string x tail :
  noQuote x ->
  scan InString (x +:+ q +:+ tail)
  = match scan AfterString tail with
    | Some l => Some (x :: l)
    | None => None
    end.
Proof.
  unfold noQuote. induction x as [|c x IH]; simpl; intros Hx.
  - rewrite ?Ascii.eqb_refl. reflexivity.
  - apply Forall_cons in Hx as [Hc Hx]. rewrite Hc, (IH Hx).
    destruct (scan AfterString tail); reflexivity.
Qed.

Lemma scan_AtItem_quote rest :
  scan AtItem (String dquote rest) = scan InString rest.
Proof. reflexivity. Qed.

Lemma scan_AfterString_comma rest :
  scan AfterString (String ","%char rest) = scan AtItem rest.
Proof. reflexivity. Qed.

Lemma items_cons id ids :
  items (id :: ids)
  = String dquote
      (id +:+ q +:+ match ids with
                    | [] => "]"
                    | _ :: _ => String ","%char (items ids)
                    end).
Proof. destruct ids; reflexivity. Qed.

Lemma scan_items id ids :
  Forall noQuote (id :: ids) -> scan AtItem (items (id :: ids)) = Some (id :: ids).
Proof.
  revert id. induction ids as [|id' ids IH]; intros id Hall;
    apply Forall_cons in Hall as [Hid Hall];
    rewrite items_cons, scan_AtItem_quote, scan_string by done.
  - reflexivity.
  - rewrite scan_AfterString_comma, IH by done. reflexivity.
Qed.

#[export] Instance laws : ExternalLaws.
Proof.
  split. intros ids data Hvalid Hm.
  assert (Hq : Forall noQuote ids).
  { eapply Forall_impl; [exact Hvalid|]. apply valid_id_noQuote. }
  simpl in Hm. unfold marshalStrings in Hm. injection Hm as <-.
  simpl json_Unmarshal_strings. destruct ids as [|id ids]; [reflexivity|].
  unfold unmarshalStrings. rewrite items_cons.
  change ("[" +:+ ?x) with (String "["%char x).
  cbn [String.eqb Ascii.eqb Bool.eqb]. rewrite <- items_cons.
  rewrite scan_items by done. reflexivity.
Qed.

End Sample.

#[local] Existing Instance Sample.external.
#[local] Existing Instance Sample.laws.

(** ** Reading a state *)

Definition hasDB (w : World) : bool :=
  match boltFile w with FileDB _ => true | _ => false end.

Definition fileDB (w : World) : DB :=
  match boltFile w with FileDB db => db | _ => ∅ end.

Definition hasBucket (name : string) (w : World) : bool :=
  match fileDB w !! name with Some _ => true | None => false end.

Definition bucketOf (name : string) (w : World) : Bucket :=
  default [] (fileDB w !! name).

(** The ranked vector that [getRankedServerEntries] reads in the file. *)
Definition rankedIds {ext : External} (w : World) : Res (list string) :=
  match getRankedServerEntries (fileDB w) with
  | (_, Ok (ids, _)) => Ok ids
  | (_, Err e) => Err e
  | (_, Panic) => Panic
  end.

Lemma hasDB_file w : hasDB w = true -> boltFile w = FileDB (fileDB w).
Proof. unfold hasDB, fileDB. destruct (boltFile w); done. Qed.

Lemma hasBucket_lookup name w :
  hasBucket name w = true -> fileDB w !! name = Some (bucketOf name w).
Proof. unfold hasBucket, bucketOf. destruct (fileDB w !! name); done. Qed.

Lemma pair_of_fst {A B} (p : A * B) (a : A) : p.1 = a -> p = (a, p.2).
Proof. destruct p. simpl. intros ->. reflexivity. Qed.

(** ** Sample inputs *)

Definition freshWorld : World := mkWorld FileAbsent false [] [] [].

Definition configCA : Config := mkConfig "CA" 1 EmptyString false [].
Definition configAny : Config := mkConfig EmptyString 1 EmptyString false [].

(** The state after [OpenDataStore] where no file existed. *)
Definition opened : World := (OpenDataStore configCA freshWorld).2.

Definition entryA : @ServerEntryFields Sample.external := Sample.mkFields "1.1.1.1" "CA" 1.
Definition entryB : @ServerEntryFields Sample.external := Sample.mkFields "2.2.2.2" "US" 1.
Definition entryC : @ServerEntryFields Sample.external := Sample.mkFields "3.3.3.3" "CA" 1.

Definition storedA : World := (StoreServerEntry entryA false opened).2.
Definition storedAB : World := (StoreServerEntry entryB false storedA).2.
Definition storedABC : World := (StoreServerEntry entryC false storedAB).2.

Lemma opened_Ok : OpenDataStore configCA freshWorld = (Ok tt, opened).
Proof. apply pair_of_fst. vm_compute. reflexivity. Qed.

Lemma storedA_Ok : StoreServerEntry entryA false opened = (Ok tt, storedA).
Proof. apply pair_of_fst. vm_compute. reflexivity. Qed.

Lemma storedAB_Ok : StoreServerEntry entryB false storedA = (Ok tt, storedAB).
Proof. apply pair_of_fst. vm_compute. reflexivity. Qed.

Lemma storedABC_Ok :
  StoreServerEntry entryC false storedAB = (Ok tt, storedABC).
Proof. apply pair_of_fst. vm_compute. reflexivity. Qed.

Lemma storedAB_Reachable : Reachable storedAB.
Proof.
  exists configCA, freshWorld, opened,
    [OpStoreServerEntry entryA false; OpStoreServerEntry entryB false].
  split; [reflexivity|]. split; [exact opened_Ok|reflexivity].
Qed.

(** ** C1 on a sample run *)

Definition sampleOps : list Op :=
  [ OpStoreServerEntry entryA false;
    OpStoreServerEntry entryB false;
    OpPromoteServerEntry configCA "2.2.2.2";
    OpStoreServerEntry entryA true;
    OpNewServerEntryIterator configCA;
    OpCloseDataStore;
    OpOpenDataStore configCA;
    OpStoreServerEntry entryC false ].

Lemma ranked_vector_capped_and_unique_witness :
  ∃ db R,
    boltFile (run sampleOps opened) = FileDB db ∧
    getRankedServerEntries db = ([], Ok (R, db)) ∧
    (length R <= 100)%nat ∧
    ∀ i j x y, i ≠ j -> R !! i = Some x -> R !! j = Some y -> x ≠ y.
Proof.
  apply (ranked_vector_capped_and_unique configCA freshWorld opened sampleOps).
  - reflexivity.
  - exact opened_Ok.
Defined.

(** ** C2 on a sample run *)

Definition promotedB : World := (PromoteServerEntry configCA "2.2.2.2" storedAB).2.

Lemma PromoteServerEntry_spec_witness :
  ∃ db' R' (kv : Bucket) currentFilter,
    boltFile promotedB = FileDB db' ∧
    promoteServerEntryTx configCA "2.2.2.2" (fileDB storedAB)
      = ([], Ok (tt, db')) ∧
    getRankedServerEntries db' = ([], Ok (R', db')) ∧
    R' !! 0%nat = Some "2.2.2.2" ∧
    makeServerEntryFilterValue configCA = Ok currentFilter ∧
    currentFilter = EgressRegion configCA ∧
    db' !! keyValueBucket = Some kv ∧
    bolt.Get DATA_STORE_LAST_SERVER_ENTRY_FILTER_KEY kv = Some currentFilter.
Proof.
  pose proof (PromoteServerEntry_spec configCA "2.2.2.2" storedAB
                (Ok tt) promotedB (fileDB storedAB)
                (bucketOf serverEntriesBucket storedAB)
                storedAB_Reachable) as H.
  assert (Hget : is_Some (bolt.Get "2.2.2.2"
                            (bucketOf serverEntriesBucket storedAB)))
    by (vm_compute; eauto).
  destruct Hget as [data Hget]. rewrite Hget in H.
  apply H.
  - vm_compute. reflexivity.
  - apply hasDB_file. vm_compute. reflexivity.
  - apply hasBucket_lookup. vm_compute. reflexivity.
  - apply pair_of_fst. vm_compute. reflexivity.
  - reflexivity.
Defined.

(** ** C3 on sample runs *)

(** An entry for [1.1.1.1] with a configuration version two above the
    stored one: it is written. *)
Definition entryA3 : @ServerEntryFields Sample.external :=
  Sample.mkFields "1.1.1.1" "CA" 3.

Definition dataOf (f : @ServerEntryFields Sample.external) : string :=
  match json_Marshal_ServerEntryFields f with
  | Ok data => data
  | _ => EmptyString
  end.

Lemma StoreServerEntry_writes_when_witness :
  ∃ data db' R R',
    json_Marshal_ServerEntryFields entryA3 = Ok data ∧
    boltFile (StoreServerEntry entryA3 false storedAB).2 = FileDB db' ∧
    storeServerEntryTx entryA3 false (fileDB storedAB)
      = ([NoticeInfo ("updated server " +:+ GetIPAddress entryA3)],
         Ok (tt, db')) ∧
    db' !! serverEntriesBucket
      = Some (bolt.put (GetIPAddress entryA3) data
                (bucketOf serverEntriesBucket storedAB)) ∧
    getRankedServerEntries (fileDB storedAB)
      = ([], Ok (R, fileDB storedAB)) ∧
    insertCapped (GetIPAddress entryA3) 1
      (removeRanked (GetIPAddress entryA3) R) = Some R' ∧
    getRankedServerEntries db' = ([], Ok (R', db')) ∧
    R' !! (1 `min` (length R' - 1))%nat = Some (GetIPAddress entryA3) ∧
    notices (StoreServerEntry entryA3 false storedAB).2
      = notices storedAB
        ++ [NoticeInfo ("updated server " +:+ GetIPAddress entryA3)].
Proof.
  pose proof (StoreServerEntry_writes_when entryA3 false storedAB
                (StoreServerEntry entryA3 false storedAB).2
                (fileDB storedAB) (bucketOf serverEntriesBucket storedAB)
                storedAB_Reachable) as H.
  assert (Hw : writesRecord
                 (decodedConfigurationVersion
                    (bolt.Get (GetIPAddress entryA3)
                       (bucketOf serverEntriesBucket storedAB)))
                 false (GetConfigurationVersion entryA3) = true)
    by (vm_compute; reflexivity).
  rewrite Hw in H. apply H.
  - apply hasDB_file. vm_compute. reflexivity.
  - apply hasBucket_lookup. vm_compute. reflexivity.
  - apply pair_of_fst. vm_compute. reflexivity.
Defined.

(** The stored record for [1.1.1.1] has configuration version -1 and
    decodes; the new entries have version -1 and -5 and [replaceIfExists]
    is not set. By the doc comment of [StoreServerEntry] the stored record
    is to stay; the code replaces it. *)
Definition entryNeg : @ServerEntryFields Sample.external :=
  Sample.mkFields "1.1.1.1" "CA" (-1).
Definition entryNegUS : @ServerEntryFields Sample.external :=
  Sample.mkFields "1.1.1.1" "US" (-1).
Definition entryNeg5 : @ServerEntryFields Sample.external :=
  Sample.mkFields "1.1.1.1" "US" (-5).
Definition storedNeg : World := (StoreServerEntry entryNeg false opened).2.

Lemma storedNeg_Ok :
  StoreServerEntry entryNeg false opened = (Ok tt, storedNeg).
Proof. apply pair_of_fst. vm_compute. reflexivity. Qed.

Lemma storedNeg_Reachable : Reachable storedNeg.
Proof.
  exists configCA, freshWorld, opened, [OpStoreServerEntry entryNeg false].
  split; [reflexivity|]. split; [exact opened_Ok|reflexivity].
Qed.

Lemma StoreServerEntry_negative_version_run :
  bolt.Get "1.1.1.1" (bucketOf serverEntriesBucket storedNeg)
    = Some (dataOf entryNeg) ∧
  decodedConfigurationVersion
    (bolt.Get "1.1.1.1" (bucketOf serverEntriesBucket storedNeg))
    = Some (-1) ∧
  claimedWrite
    (decodedConfigurationVersion
       (bolt.Get "1.1.1.1" (bucketOf serverEntriesBucket storedNeg)))
    false (GetConfigurationVersion entryNegUS) = false ∧
  (StoreServerEntry entryNegUS false storedNeg).1 = Ok tt ∧
  bolt.Get "1.1.1.1"
    (bucketOf serverEntriesBucket
       (StoreServerEntry entryNegUS false storedNeg).2)
    = Some (dataOf entryNegUS) ∧
  dataOf entryNegUS ≠ dataOf entryNeg ∧
  (StoreServerEntry entryNeg5 false storedNeg).1 = Ok tt ∧
  bolt.Get "1.1.1.1"
    (bucketOf serverEntriesBucket
       (StoreServerEntry entryNeg5 false storedNeg).2)
    = Some (dataOf entryNeg5) ∧
  dataOf entryNeg5 ≠ dataOf entryNeg.
Proof.
  repeat split; try (vm_compute; reflexivity); vm_compute; discriminate.
Qed.

(** A stored record with a configuration version above -1 is handled as
    the doc comment says: the same new entries leave it alone. *)
Lemma StoreServerEntry_same_version_ignored :
  (StoreServerEntry entryA false storedA).1 = Ok tt ∧
  boltFile (StoreServerEntry entryA false storedA).2 = boltFile storedA ∧
  (StoreServerEntry entryNeg5 false storedA).1 = Ok tt ∧
  boltFile (StoreServerEntry entryNeg5 false storedA).2 = boltFile storedA.
Proof. repeat split; vm_compute; reflexivity. Qed.

Lemma StoreServerEntry_overwrites_negative_version_witness :
  claimedWrite
    (decodedConfigurationVersion
       (bolt.Get (GetIPAddress entryNegUS)
          (bucketOf serverEntriesBucket storedNeg)))
    false (GetConfigurationVersion entryNegUS) = false ∧
  ∃ data db' (b' : Bucket),
    json_Marshal_ServerEntryFields entryNegUS = Ok data ∧
    boltFile (StoreServerEntry entryNegUS false storedNeg).2 = FileDB db' ∧
    db' !! serverEntriesBucket = Some b' ∧
    bolt.Get (GetIPAddress entryNegUS) b' = Some data ∧
    notices (StoreServerEntry entryNegUS false storedNeg).2
      = notices storedNeg
        ++ [NoticeInfo ("updated server " +:+ GetIPAddress entryNegUS)].
Proof.
  apply (StoreServerEntry_overwrites_negative_version entryNegUS storedNeg
           (StoreServerEntry entryNegUS false storedNeg).2
           (fileDB storedNeg) (bucketOf serverEntriesBucket storedNeg)
           (dataOf entryNeg) (mkServerEntry "1.1.1.1" "CA" (-1) EmptyString [])
           storedNeg_Reachable).
  - apply hasDB_file. vm_compute. reflexivity.
  - apply hasBucket_lookup. vm_compute. reflexivity.
  - vm_compute. reflexivity.
  - vm_compute. reflexivity.
  - simpl. lia.
  - vm_compute. discriminate.
  - apply pair_of_fst. vm_compute. reflexivity.
Defined.

(** ** C4 on a sample run *)

Lemma three_stored_entries_ranked_witness :
  ∃ db,
    boltFile storedABC = FileDB db ∧
    getRankedServerEntries db
      = ([], Ok ([GetIPAddress entryA; GetIPAddress entryC;
                  GetIPAddress entryB], db)).
Proof.
  apply (three_stored_entries_ranked configCA freshWorld opened
           storedA storedAB storedABC entryA entryB entryC).
  - reflexivity.
  - exact opened_Ok.
  - exact storedA_Ok.
  - exact storedAB_Ok.
  - exact storedABC_Ok.
  - vm_compute. discriminate.
  - vm_compute. discriminate.
  - vm_compute. discriminate.
Defined.

(** After [A], [B] and [C] are stored the ranked vector is [[A; C; B]],
    not [[C; B; A]]. *)
Lemma three_stored_entries_counterexample :
  rankedIds storedABC = Ok ["1.1.1.1"; "3.3.3.3"; "2.2.2.2"] ∧
  rankedIds storedABC ≠ Ok ["3.3.3.3"; "2.2.2.2"; "1.1.1.1"].
Proof.
  assert (H : rankedIds storedABC = Ok ["1.1.1.1"; "3.3.3.3"; "2.2.2.2"])
    by (vm_compute; reflexivity).
  split; [exact H|]. rewrite H. discriminate.
Qed.

(** ** C7 on a sample run *)

(** The storage layer commits the two transactions of the initialization
    and fails the commit of the third, the reset. *)
Definition thirdCommitFails : World :=
  mkWorld FileAbsent false [] [false; false; true] [].

Definition initialized : World := (openAndInitialize configCA thirdCommitFails).2.
Definition afterFailedReset : World :=
  (resetAllPersistentStatsToUnreported initialized).2.

Lemma initialized_Ok :
  openAndInitialize configCA thirdCommitFails = (Ok tt, initialized).
Proof. apply pair_of_fst. vm_compute. reflexivity. Qed.

Lemma reset_fails :
  resetAllPersistentStatsToUnreported initialized
  = (Err ErrCommit, afterFailedReset).
Proof. apply pair_of_fst. vm_compute. reflexivity. Qed.

Lemma OpenDataStore_discards_reset_error_witness :
  OpenDataStore configCA thirdCommitFails = (Ok tt, afterFailedReset) ∧
  datastoreDB afterFailedReset = true ∧
  boltFile afterFailedReset = boltFile initialized.
Proof.
  apply (OpenDataStore_discards_reset_error configCA thirdCommitFails
           initialized ErrCommit afterFailedReset).
  - exact initialized_Ok.
  - exact reset_fails.
Defined.

(** The reset fails, and [OpenDataStore] returns no error. *)
Lemma OpenDataStore_reset_error_counterexample :
  (resetAllPersistentStatsToUnreported initialized).1 = Err ErrCommit ∧
  (OpenDataStore configCA thirdCommitFails).1 = Ok tt.
Proof. split; vm_compute; reflexivity. Qed.

(** ** C8 on a sample run *)

Definition stat1 : string :=
  "{" +:+ Sample.key "url" +:+ Sample.q +:+ "a" +:+ Sample.q +:+ "}".
Definition stat2 : string :=
  "{" +:+ Sample.key "url" +:+ Sample.q +:+ "b" +:+ Sample.q +:+ "}".

Definition statsStored : World :=
  (StorePersistentStat PERSISTENT_STAT_TYPE_REMOTE_SERVER_LIST stat2
     (StorePersistentStat PERSISTENT_STAT_TYPE_REMOTE_SERVER_LIST stat1
        opened).2).2.

Definition takenOut : gmap string (list string) :=
  match (TakeOutUnreportedPersistentStats 10 statsStored).1 with
  | Ok stats => stats
  | _ => ∅
  end.
Definition afterTakeOut : World :=
  (TakeOutUnreportedPersistentStats 10 statsStored).2.
Definition afterPutBack : World :=
  (PutBackUnreportedPersistentStats takenOut afterTakeOut).2.
Definition takenOutAgain : gmap string (list string) :=
  match (TakeOutUnreportedPersistentStats 2 afterPutBack).1 with
  | Ok stats => stats
  | _ => ∅
  end.

Definition isOk {A} (r : Res A) : bool :=
  match r with Ok _ => true | _ => false end.

Lemma takeOut_Ok {ext : External} n w :
  isOk (TakeOutUnreportedPersistentStats n w).1 = true ->
  TakeOutUnreportedPersistentStats n w
  = (Ok match (TakeOutUnreportedPersistentStats n w).1 with
        | Ok stats => stats
        | _ => ∅
        end,
     (TakeOutUnreportedPersistentStats n w).2).
Proof.
  destruct (TakeOutUnreportedPersistentStats n w) as [[stats|e|] w'];
    simpl; done.
Qed.

Lemma put_back_then_take_out_witness :
  statsOf takenOut PERSISTENT_STAT_TYPE_REMOTE_SERVER_LIST = [stat1; stat2] ∧
  ∀ statType key,
    key ∈ statsOf takenOut statType -> key ∈ statsOf takenOutAgain statType.
Proof.
  split; [vm_compute; reflexivity|].
  apply (put_back_then_take_out 10 statsStored takenOut afterTakeOut
           afterTakeOut afterPutBack (fileDB afterPutBack) 2 takenOutAgain
           (TakeOutUnreportedPersistentStats 2 afterPutBack).2).
  - apply takeOut_Ok. vm_compute. reflexivity.
  - apply pair_of_fst. vm_compute. reflexivity.
  - apply hasDB_file. vm_compute. reflexivity.
  - vm_compute. discriminate.
  - apply takeOut_Ok. vm_compute. reflexivity.
Defined.

(** ** C10 on a sample run *)


(** ** C5: the count of unreported stats *)

(** The counter is incremented at most once for a stat type, so the
    count is never above the number of stat types, one. *)
Lemma countUnreportedLoop_bound (items : Bucket) unreported :
  unreported <= countUnreportedLoop items unreported <= unreported + 1.
Proof.
  induction items as [|[k v] items IH]; simpl; [lia|].
  destruct (bytes_Compare v persistentStatStateUnreported =? 0); lia.
Qed.

(** The state after the process that took the two stats out has ended
    without clearing them or putting them back, and the datastore has
    been opened again. *)
Definition reopened : World :=
  (OpenDataStore configCA (CloseDataStore afterTakeOut)).2.

(** C5, the code at the failing input. Two stats are stored and taken
    out; the process ends; the datastore is opened again. Both records
    are then unreported, and [CountUnreportedPersistentStats] returns 1,
    not 2: its loop leaves a bucket at the first unreported record. *)
Theorem CountUnreportedPersistentStats_after_crash :
  statsOf takenOut PERSISTENT_STAT_TYPE_REMOTE_SERVER_LIST = [stat1; stat2] ∧
  (OpenDataStore configCA (CloseDataStore afterTakeOut)).1 = Ok tt ∧
  bucketOf remoteServerListStatsBucket reopened
    = [(stat1, persistentStatStateUnreported);
       (stat2, persistentStatStateUnreported)] ∧
  (CountUnreportedPersistentStats reopened).1 = 1.
Proof. repeat split; vm_compute; reflexivity. Qed.

(** ** C6: the server entry filter on a fresh datastore *)

(** C6, the code at the failing input. On a datastore that was just
    opened where no file existed, no filter value is stored. For a config
    with an egress region [hasServerEntryFilterChanged] returns true; for
    a config whose egress region is empty it returns false: the nil slice
    that [Get] returns compares equal to the empty slice. *)
Theorem hasServerEntryFilterChanged_fresh_empty_region :
  bolt.Get DATA_STORE_LAST_SERVER_ENTRY_FILTER_KEY
    (bucketOf keyValueBucket opened) = None ∧
  (hasServerEntryFilterChanged configCA opened).1 = Ok true ∧
  (hasServerEntryFilterChanged configAny opened).1 = Ok false.
Proof. repeat split; vm_compute; reflexivity. Qed.

(** ** C9: the two writes of SetSplitTunnelRoutes *)

Lemma Put_value_too_large key value (b : Bucket) :
  (bolt.len key =? 0)%N = false ->
  (bolt.MaxKeySize <? bolt.len key)%N = false ->
  (bolt.MaxValueSize < bolt.len value)%N ->
  bolt.Put key value b = Err ErrValueTooLarge.
Proof.
  intros H1 H2 H3. unfold bolt.Put. rewrite H1, H2.
  apply N.ltb_lt in H3. rewrite H3. reflexivity.
Qed.

(** When the first [Put] returns an error and the second does not, the
    transaction function returns nil, with the data written and the ETag
    not. *)
Lemma setSplitTunnelRoutesTx_first_error region etag data (db : DB)
    (etags routes : Bucket) e :
  db !! splitTunnelRouteETagsBucket = Some etags ->
  db !! splitTunnelRouteDataBucket = Some routes ->
  bolt.Put region etag etags = Err e ->
  bolt.Put region data routes = Ok (bolt.put region data routes) ->
  setSplitTunnelRoutesTx region etag data db
  = ([], Ok (tt, <[splitTunnelRouteDataBucket :=
                     bolt.put region data routes]> db)).
Proof.
  intros He Hr HP1 HP2. unfold setSplitTunnelRoutesTx, bucket_Put.
  rewrite He, HP1, Hr, HP2. reflexivity.
Qed.

Lemma dataStoreUpdate_commits {A} (fn : Tx A) w (db db' : DB) ns a :
  datastoreDB w = true -> boltFile w = FileDB db -> commitFaults w = [] ->
  fn db = (ns, Ok (a, db')) ->
  dataStoreUpdate fn w = (Ok a, setFile (FileDB db') (emit ns w)).
Proof.
  intros Hh Hf Hc Hfn. unfold dataStoreUpdate, db_Update.
  rewrite Hh, Hf, Hfn, Hc. reflexivity.
Qed.

Fixpoint replicate_char (n : nat) (c : ascii) : string :=
  match n with
  | O => EmptyString
  | S n' => String c (replicate_char n' c)
  end.

Lemma length_replicate_char n c : String.length (replicate_char n c) = n.
Proof. induction n as [|n IH]; simpl; congruence. Qed.

(** An ETag of 2^31 - 1 bytes, one more than [bolt.MaxValueSize]. *)
Definition hugeETag : string :=
  replicate_char (N.to_nat 2147483647) "e"%char.

Lemma hugeETag_too_large : (bolt.MaxValueSize < bolt.len hugeETag)%N.
Proof.
  unfold bolt.len, hugeETag. rewrite length_replicate_char, N2Nat.id.
  reflexivity.
Qed.

Lemma opened_file :
  boltFile opened = FileDB initialDB ∧ datastoreDB opened = true.
Proof. apply (OpenDataStore_fresh configCA freshWorld); [reflexivity|exact opened_Ok]. Qed.

Lemma opened_no_faults : commitFaults opened = [] ∧ notices opened = [].
Proof. split; vm_compute; reflexivity. Qed.

(** C9, the code at the failing input. On an open datastore, with an
    ETag that is too large for bolt and route data that is not: the [Put]
    of the ETag returns an error, and [SetSplitTunnelRoutes] returns nil,
    having committed the route data without an ETag. *)
Theorem SetSplitTunnelRoutes_loses_first_error :
  bolt.Put "CA" hugeETag [] = Err ErrValueTooLarge ∧
  (SetSplitTunnelRoutes "CA" hugeETag "routes" opened).1 = Ok tt ∧
  bucketOf splitTunnelRouteETagsBucket
    (SetSplitTunnelRoutes "CA" hugeETag "routes" opened).2 = [] ∧
  bucketOf splitTunnelRouteDataBucket
    (SetSplitTunnelRoutes "CA" hugeETag "routes" opened).2
    = [("CA", "routes")].
Proof.
  assert (HP : ∀ b : Bucket, bolt.Put "CA" hugeETag b = Err ErrValueTooLarge).
  { intros b. apply Put_value_too_large;
      [reflexivity|reflexivity|exact hugeETag_too_large]. }
  destruct opened_file as [Hf Hh]. destruct opened_no_faults as [Hc _].
  assert (Hlive : ∀ n, n ∈ liveBuckets -> initialDB !! n = Some [])
    by apply initialDB_lookup.
  assert (He : initialDB !! splitTunnelRouteETagsBucket = Some []).
  { apply Hlive. unfold liveBuckets. rewrite !elem_of_cons. tauto. }
  assert (Hr : initialDB !! splitTunnelRouteDataBucket = Some []).
  { apply Hlive. unfold liveBuckets. rewrite !elem_of_cons. tauto. }
  assert (Hrun : SetSplitTunnelRoutes "CA" hugeETag "routes" opened
                 = (Ok tt,
                    setFile
                      (FileDB (<[splitTunnelRouteDataBucket :=
                                   bolt.put "CA" "routes" []]> initialDB))
                      (emit [] opened))).
  { unfold SetSplitTunnelRoutes.
    apply (dataStoreUpdate_commits _ _ initialDB); try assumption.
    apply (setSplitTunnelRoutesTx_first_error _ _ _ _ [] [] ErrValueTooLarge);
      [exact He|exact Hr|apply HP|reflexivity]. }
  split; [apply HP|]. rewrite Hrun. split; [reflexivity|].
  unfold bucketOf, fileDB. cbn [snd setFile boltFile].
  split.
  - rewrite lookup_insert_ne by discriminate. rewrite He. reflexivity.
  - rewrite lookup_insert_eq. reflexivity.
Qed.
